(** * Dice-sum simulation toolkit: the combinatorics engine, the theoretical
    distribution, the simulation loop and the chi-squared statistic of
    [main.c], embedded as Rocq functions.

    C's [int] and [long long] are integers of [Z] whose every signed
    operation is range-checked: C leaves signed overflow undefined, and so
    does the embedding ([Undefined]).  Arrays are lists with checked
    indexing.  [double] arithmetic is an interface with two instances:
    IEEE binary64 (the kernel's floats) and exact rationals. *)

From Stdlib Require Import ZArith List Lia Bool FinFun QArith Qround Qpower Qfield Lqa Floats Uint63 Ascii.
Import ListNotations.

Local Open Scope Z_scope.

(** ** Outcomes of running C code *)

Inductive outcome (A : Type) : Type :=
| Ret (a : A)      (* the code returns [a] *)
| Undefined        (* signed overflow, division by zero, index out of bounds *)
| OutOfFuel.       (* the recursion budget of the embedding is exhausted *)

Arguments Ret {A} a.
Arguments Undefined {A}.
Arguments OutOfFuel {A}.

Definition bind {A B : Type} (m : outcome A) (k : A -> outcome B) : outcome B :=
  match m with
  | Ret a => k a
  | Undefined => Undefined
  | OutOfFuel => OutOfFuel
  end.

Notation "x <- m ;; k" := (bind m (fun x => k))
  (at level 61, m at next level, right associativity).
Notation "' pat <- m ;; k" := (bind m (fun x => match x with pat => k end))
  (at level 61, pat pattern, m at next level, right associativity).

(** ** Machine integers *)

Definition INT_MIN : Z := -2147483648.
Definition INT_MAX : Z := 2147483647.
Definition LLONG_MIN : Z := -9223372036854775808.
Definition LLONG_MAX : Z := 9223372036854775807.

Definition in_int (z : Z) : bool := (INT_MIN <=? z) && (z <=? INT_MAX).
Definition in_llong (z : Z) : bool := (LLONG_MIN <=? z) && (z <=? LLONG_MAX).

(** The result of an [int] (resp. [long long]) operation whose exact value
    is [z]. *)
Definition int_of (z : Z) : outcome Z := if in_int z then Ret z else Undefined.
Definition llong_of (z : Z) : outcome Z := if in_llong z then Ret z else Undefined.

(** [a % b] on [int]: truncated remainder, undefined for a zero divisor and
    for [INT_MIN % -1]. *)
Definition int_rem (a b : Z) : outcome Z :=
  if b =? 0 then Undefined
  else if (a =? INT_MIN) && (b =? -1) then Undefined
  else Ret (Z.rem a b).

(** ** Counting loops

    [for (c = lo; test(c); c++) s = body(c, s);] with the counter's increment
    range-checked by [chk].  The test is the loop's own; [n] bounds the
    number of iterations, and the two instances below give it the number
    the test allows. *)
Fixpoint for_loop {S : Type} (chk : Z -> outcome Z) (n : nat) (c : Z)
    (test : Z -> bool) (body : Z -> S -> outcome S) (s : S) : outcome S :=
  if test c then
    match n with
    | O => OutOfFuel
    | Datatypes.S n' =>
        s' <- body c s ;;
        c' <- chk (c + 1) ;;
        for_loop chk n' c' test body s'
    end
  else Ret s.

(** [for (c = lo; c <= hi; c++)] *)
Definition for_le {S : Type} (chk : Z -> outcome Z) (lo hi : Z)
    (body : Z -> S -> outcome S) (s : S) : outcome S :=
  for_loop chk (Z.to_nat (hi + 1 - lo)) lo (fun c => c <=? hi) body s.

(** [for (c = lo; c < hi; c++)] *)
Definition for_lt {S : Type} (chk : Z -> outcome Z) (lo hi : Z)
    (body : Z -> S -> outcome S) (s : S) : outcome S :=
  for_loop chk (Z.to_nat (hi - lo)) lo (fun c => c <? hi) body s.

(** ** Arrays: lists with checked indexing *)

Definition array_get {A : Type} (a : list A) (i : Z) : outcome A :=
  if 0 <=? i then
    match nth_error a (Z.to_nat i) with
    | Some x => Ret x
    | None => Undefined
    end
  else Undefined.

Fixpoint list_upd {A : Type} (a : list A) (n : nat) (x : A) : list A :=
  match a, n with
  | [], _ => []
  | _ :: r, O => x :: r
  | y :: r, Datatypes.S n' => y :: list_upd r n' x
  end.

Definition array_set {A : Type} (a : list A) (i : Z) (x : A) : outcome (list A) :=
  if (0 <=? i) && (i <? Z.of_nat (length a)) then Ret (list_upd a (Z.to_nat i) x)
  else Undefined.

(** An array with a cell for every sum of [lo .. hi], of a length that is an
    [int] (as [main] allocates them: [max_sum + 1] cells). *)
Definition defined_on {A : Type} (a : list A) (lo hi : Z) : Prop :=
  0 <= lo /\ hi < Z.of_nat (length a) <= INT_MAX.

(** [calloc (n, sizeof ...)], taken to succeed: [n] zeroed cells. *)
Definition calloc {A : Type} (zero : A) (n : Z) : list A := repeat zero (Z.to_nat n).

(** The cell of index [i], read outside any run of the code. *)
Definition cell {A : Type} (d : A) (a : list A) (i : Z) : A := nth (Z.to_nat i) a d.

(** ** The combinatorics engine *)

(** [count_sum_combinations_recursive]; [fuel] is the number of nested
    activations the evaluation may use. *)
Fixpoint count_sum_combinations_recursive (fuel : nat)
    (dice_remaining target_sum num_sides : Z) : outcome Z :=
  match fuel with
  | O => OutOfFuel
  | Datatypes.S fuel' =>
      if target_sum <? dice_remaining then Ret 0
      else
        prod <- int_of (dice_remaining * num_sides) ;;
        if target_sum >? prod then Ret 0
        else if dice_remaining =? 0 then
          Ret (if target_sum =? 0 then 1 else 0)
        else
          for_le int_of 1 num_sides
            (fun i total_combinations =>
               d' <- int_of (dice_remaining - 1) ;;
               t' <- int_of (target_sum - i) ;;
               r <- count_sum_combinations_recursive fuel' d' t' num_sides ;;
               llong_of (total_combinations + r))
            0
  end.

(** ** What the engine is to count (the contract's words)

    The tuples of [n] face values, each in [1, k], and the number of them
    whose sum is [t]. *)

Fixpoint zseq (lo : Z) (n : nat) : list Z :=
  match n with
  | O => []
  | Datatypes.S n' => lo :: zseq (lo + 1) n'
  end.

Definition faces (k : Z) : list Z := zseq 1 (Z.to_nat k).

Fixpoint tuples (n : nat) (k : Z) : list (list Z) :=
  match n with
  | O => [[]]
  | Datatypes.S n' => flat_map (fun f => map (cons f) (tuples n' k)) (faces k)
  end.

Definition total (l : list Z) : Z := fold_right Z.add 0 l.

Definition count_tuples (n : nat) (t k : Z) : Z :=
  Z.of_nat (length (filter (fun l => total l =? t) (tuples n k))).

(** The same number by the recurrence on the first die, without pruning and
    on unbounded integers. *)
Definition zsum (f : Z -> Z) (l : list Z) : Z :=
  fold_right (fun x acc => f x + acc) 0 l.

Fixpoint ways (n : nat) (t k : Z) : Z :=
  match n with
  | O => if t =? 0 then 1 else 0
  | Datatypes.S n' => zsum (fun i => ways n' (t - i) k) (faces k)
  end.

(** ** [double] arithmetic

    The operations the code applies to [double] values. *)
Record arith : Type := Arith {
  num : Type;
  num_zero : num;                      (* 0.0 *)
  num_add : num -> num -> num;
  num_sub : num -> num -> num;
  num_mul : num -> num -> num;
  num_div : num -> num -> num;
  num_gt0 : num -> bool;               (* [x > 0] *)
  num_of_Z : Z -> num                  (* an [int] or [long long] converted *)
}.

(** IEEE 754 binary64, rounding to nearest even. *)
Definition double_of_Z (z : Z) : float :=
  if z =? LLONG_MIN then
    PrimFloat.opp (PrimFloat.mul (PrimFloat.of_uint63 4611686018427387904) 2)
  else if z <? 0 then PrimFloat.opp (PrimFloat.of_uint63 (Uint63.of_Z (- z)))
  else PrimFloat.of_uint63 (Uint63.of_Z z).

Definition binary64 : arith :=
  Arith float PrimFloat.zero PrimFloat.add PrimFloat.sub PrimFloat.mul PrimFloat.div
        (fun x => PrimFloat.ltb PrimFloat.zero x) double_of_Z.

(** Exact arithmetic on rationals. *)
Definition exact : arith :=
  Arith Q 0%Q Qplus Qminus Qmult Qdiv (fun x => negb (Qle_bool x 0)) inject_Z.

(** [pow] in exact arithmetic, for an exponent that is an integer. *)
Definition exact_pow (x y : Q) : Q := Qpower x (Qfloor y).

(** ** The theoretical distribution and the chi-squared statistic *)

Section Numeric.

Variable A : arith.
Variable pow : num A -> num A -> num A.

(** [calculate_theoretical_counts]; [fuel] is handed to the engine. *)
Definition calculate_theoretical_counts (fuel : nat)
    (num_dice num_sides num_trials : Z) (expected_counts : list (num A))
    : outcome (list (num A)) :=
  let min_sum := num_dice in
  max_sum <- int_of (num_dice * num_sides) ;;
  let total_possible_outcomes :=
    pow (num_of_Z A num_sides) (num_of_Z A num_dice) in
  for_le int_of min_sum max_sum
    (fun sum expected_counts =>
       ways_to_make_sum <-
         count_sum_combinations_recursive fuel num_dice sum num_sides ;;
       let probability :=
         num_div A (num_of_Z A ways_to_make_sum) total_possible_outcomes in
       array_set expected_counts sum
         (num_mul A probability (num_of_Z A num_trials)))
    expected_counts.

(** [perform_chi_squared_test] *)
Definition perform_chi_squared_test (observed_counts : list Z)
    (expected_counts : list (num A)) (min_sum max_sum : Z) : outcome (num A) :=
  for_le int_of min_sum max_sum
    (fun sum chi_squared_statistic =>
       e <- array_get expected_counts sum ;;
       if num_gt0 A e then
         o <- array_get observed_counts sum ;;
         let difference := num_sub A (num_of_Z A o) e in
         Ret (num_add A chi_squared_statistic
                (num_div A (num_mul A difference difference) e))
       else Ret chi_squared_statistic)
    (num_zero A).

(** The statistic in the contract's words: the terms of the sums with a
    positive expected count, added up from [min_sum] upwards. *)
Definition chi_term (o : Z) (e : num A) : num A :=
  num_div A (num_mul A (num_sub A (num_of_Z A o) e) (num_sub A (num_of_Z A o) e)) e.

(** The terms of the [n] sums from [lo] upwards. *)
Definition chi_terms (observed_counts : list Z)
    (expected_counts : list (num A)) (lo : Z) (n : nat) : list (num A) :=
  map (fun s => chi_term (cell 0 observed_counts s)
                         (cell (num_zero A) expected_counts s))
      (filter (fun s => num_gt0 A (cell (num_zero A) expected_counts s))
              (zseq lo n)).

Definition chi_squared_sum (observed_counts : list Z)
    (expected_counts : list (num A)) (min_sum max_sum : Z) : num A :=
  fold_left (num_add A)
    (chi_terms observed_counts expected_counts min_sum
               (Z.to_nat (max_sum + 1 - min_sum)))
    (num_zero A).

End Numeric.

(** The sum of the cells [lo .. hi] of an array of rationals. *)
Definition range_sum_Q (a : list Q) (lo hi : Z) : Q :=
  fold_right Qplus 0%Q (map (cell 0%Q a) (zseq lo (Z.to_nat (hi + 1 - lo)))).

(** ** The simulation

    [rand()] reads a sequence fixed in advance: [draws n] is what the call
    number [n] returns, and the generator's state is the number of calls
    made so far. *)

Definition rng_state : Type := nat.

(** The inner loop of [run_simulation]: one trial's sum. *)
Definition roll_dice (draws : nat -> Z) (num_dice num_sides : Z) (st : rng_state)
    : outcome (Z * rng_state) :=
  for_lt int_of 0 num_dice
    (fun _ '(current_sum, st) =>
       r <- int_rem (draws st) num_sides ;;
       face <- int_of (r + 1) ;;
       current_sum' <- int_of (current_sum + face) ;;
       Ret (current_sum', Datatypes.S st))
    (0, st).

(** The body of the outer loop: one trial. *)
Definition simulate_trial (draws : nat -> Z) (num_dice num_sides : Z)
    (observed_counts : list Z) (st : rng_state) : outcome (list Z * rng_state) :=
  '(current_sum, st') <- roll_dice draws num_dice num_sides st ;;
  old <- array_get observed_counts current_sum ;;
  new <- llong_of (old + 1) ;;
  observed_counts' <- array_set observed_counts current_sum new ;;
  Ret (observed_counts', st').

(** [run_simulation] *)
Definition run_simulation (draws : nat -> Z) (num_dice num_sides num_trials : Z)
    (observed_counts : list Z) (st : rng_state) : outcome (list Z * rng_state) :=
  for_lt llong_of 0 num_trials
    (fun _ '(observed_counts, st) =>
       simulate_trial draws num_dice num_sides observed_counts st)
    (observed_counts, st).

(** [n] trials in a row. *)
Fixpoint trials (draws : nat -> Z) (num_dice num_sides : Z) (n : nat)
    (observed_counts : list Z) (st : rng_state) : outcome (list Z * rng_state) :=
  match n with
  | O => Ret (observed_counts, st)
  | Datatypes.S n' =>
      '(observed_counts', st') <-
        simulate_trial draws num_dice num_sides observed_counts st ;;
      trials draws num_dice num_sides n' observed_counts' st'
  end.

(** What [main] does for the observed counts: [max_sum + 1] zeroed cells,
    then the simulation. *)
Definition main_observed (draws : nat -> Z) (num_dice num_sides num_trials : Z)
    : outcome (list Z * rng_state) :=
  max_sum <- int_of (num_dice * num_sides) ;;
  size <- int_of (max_sum + 1) ;;
  run_simulation draws num_dice num_sides num_trials (calloc 0 size) 0%nat.

(** The sum of the cells [lo .. hi] of an array of counts. *)
Definition range_sum (a : list Z) (lo hi : Z) : Z :=
  zsum (cell 0 a) (zseq lo (Z.to_nat (hi + 1 - lo))).

(** The configurations the input loop of [get_simulation_parameters] lets
    through. *)
Definition valid_config (num_dice num_sides num_trials : Z) : Prop :=
  1 <= num_dice <= 10 /\ 2 <= num_sides <= 100 /\ 1 <= num_trials <= LLONG_MAX.

(** ** Reading the parameters

    The standard input as [scanf] sees it: a token is a number it can
    convert, or text it cannot ([Junk]); the empty list is the end of the
    input. *)

Inductive token : Type :=
| Num (z : Z)
| Junk.

(** [scanf ("%d", p)] (with [chk := int_of]) and [scanf ("%lld", p)] (with
    [chk := llong_of]): a number is consumed and stored, and a number the
    type cannot hold is undefined; on anything else nothing is consumed and
    the variable keeps its value. *)
Definition scanf (chk : Z -> outcome Z) (var : Z) (input : list token)
    : outcome (Z * list token) :=
  match input with
  | Num z :: rest => v <- chk z ;; Ret (v, rest)
  | _ => Ret (var, input)
  end.

(** [do { scanf (...); } while (rejected (var));] where [fuel] bounds the
    number of rounds. *)
Fixpoint read_parameter (chk : Z -> outcome Z) (rejected : Z -> bool)
    (fuel : nat) (var : Z) (input : list token) : outcome (Z * list token) :=
  match fuel with
  | O => OutOfFuel
  | Datatypes.S fuel' =>
      '(var', input') <- scanf chk var input ;;
      if rejected var' then read_parameter chk rejected fuel' var' input'
      else Ret (var', input')
  end.

Definition dice_rejected (v : Z) : bool := (v <=? 0) || (v >? 10).
Definition sides_rejected (v : Z) : bool := (v <=? 1) || (v >? 100).
Definition trials_rejected (v : Z) : bool := v <=? 0.

(** [get_simulation_parameters]; [g_dice], [g_sides] and [g_trials] are
    what the three variables of [main], never initialised, hold on entry. *)
Definition get_simulation_parameters (fuel : nat) (g_dice g_sides g_trials : Z)
    (input : list token) : outcome (Z * Z * Z * list token) :=
  '(num_dice, input1) <- read_parameter int_of dice_rejected fuel g_dice input ;;
  '(num_sides, input2) <- read_parameter int_of sides_rejected fuel g_sides input1 ;;
  '(num_trials, input3) <- read_parameter llong_of trials_rejected fuel g_trials input2 ;;
  Ret (num_dice, num_sides, num_trials, input3).

(** ** The report

    What [print_results_report] prints, as data: one row per sum, then the
    statistic and the degrees of freedom. *)

Record row (N : Type) : Type := Row {
  row_sum : Z;
  row_expected : N;
  row_observed : Z;
  row_bar : list ascii        (* the [#] characters printed *)
}.

Arguments Row {N} _ _ _ _.
Arguments row_sum {N} _.
Arguments row_expected {N} _.
Arguments row_observed {N} _.
Arguments row_bar {N} _.

Record report (N : Type) : Type := Report {
  report_rows : list (row N);
  report_chi : N;
  report_dof : Z
}.

Arguments Report {N} _ _ _.
Arguments report_rows {N} _.
Arguments report_chi {N} _.
Arguments report_dof {N} _.

Section Reporting.

Variable A : arith.
Variable gt : num A -> num A -> bool.            (* [x > y] on [double] *)
Variable to_int : num A -> outcome Z.            (* [(int) x] *)
Variable pow : num A -> num A -> num A.

(** The inner loop: the largest expected count, starting from 0. *)
Definition max_expected_of (expected_counts : list (num A)) (min_sum max_sum : Z)
    : outcome (num A) :=
  for_le int_of min_sum max_sum
    (fun i max_expected =>
       e <- array_get expected_counts i ;;
       Ret (if gt e max_expected then e else max_expected))
    (num_of_Z A 0).

(** The width of one bar. *)
Definition bar_width_of (observed_counts : list Z) (sum : Z) (max_expected : num A)
    : outcome Z :=
  if num_gt0 A max_expected then
    o <- array_get observed_counts sum ;;
    to_int (num_mul A (num_div A (num_of_Z A o) max_expected) (num_of_Z A 30))
  else Ret 0.

(** [for (j = 0; j < bar_width; j++) printf ("#");] *)
Definition print_bar (bar_width : Z) : outcome (list ascii) :=
  for_lt int_of 0 bar_width (fun _ printed => Ret (printed ++ ["#"%char])) [].

(** [print_results_report] *)
Definition print_results_report (observed_counts : list Z)
    (expected_counts : list (num A)) (num_dice num_sides num_trials : Z)
    (chi_squared_stat : num A) : outcome (report (num A)) :=
  let min_sum := num_dice in
  max_sum <- int_of (num_dice * num_sides) ;;
  degrees_of_freedom <- int_of (max_sum - min_sum) ;;
  rows <-
    for_le int_of min_sum max_sum
      (fun sum rows =>
         e <- array_get expected_counts sum ;;
         o <- array_get observed_counts sum ;;
         max_expected <- max_expected_of expected_counts min_sum max_sum ;;
         bar_width <- bar_width_of observed_counts sum max_expected ;;
         bar <- print_bar bar_width ;;
         Ret (rows ++ [Row sum e o bar]))
      [] ;;
  Ret (Report rows chi_squared_stat degrees_of_freedom).


End Reporting.

(** [x > y] and [(int) x] in exact arithmetic: the conversion drops the
    fraction and is undefined outside [int]. *)
Definition exact_gt (x y : Q) : bool := negb (Qle_bool x y).
Definition exact_to_int (x : Q) : outcome Z :=
  int_of (Z.quot (Qnum x) (Zpos (Qden x))).

(** The same in binary64. *)
Definition binary64_gt (x y : float) : bool := PrimFloat.ltb y x.
Definition binary64_to_int (x : float) : outcome Z :=
  match Prim2SF x with
  | S754_zero _ => Ret 0
  | S754_finite s m e =>
      let magnitude :=
        if 0 <=? e then Zpos m * 2 ^ e else Z.quot (Zpos m) (2 ^ (- e)) in
      int_of (if s then - magnitude else magnitude)
  | _ => Undefined
  end.

(** ** What the simulation is to count

    The sum of the trial number [i]: its [num_dice] draws, each taken modulo
    [num_sides] and shifted by one. *)
Definition trial_sum (draws : nat -> Z) (num_dice num_sides : Z) (i : nat) : Z :=
  zsum (fun j => Z.rem (draws (i * Z.to_nat num_dice + Z.to_nat j)%nat) num_sides + 1)
       (zseq 0 (Z.to_nat num_dice)).

(** The number of the first [n] trials whose sum is [s]. *)
Definition histogram (draws : nat -> Z) (num_dice num_sides : Z) (n : nat) (s : Z) : Z :=
  Z.of_nat (length (filter (fun i => trial_sum draws num_dice num_sides i =? s) (seq 0 n))).

(** The largest of 0 and the rationals of a list. *)
Definition Qmax_list (l : list Q) : Q :=
  fold_left (fun m e => if exact_gt e m then e else m) l 0%Q.

(** The number of [#] a bar is to have, for an observed count [o] and a
    largest expected count [m]: the integer part of [o / m * 30], and none
    when [m] is not positive. *)
Definition bar_length (o : Z) (m : Q) : nat :=
  if num_gt0 exact m then Z.to_nat (Qfloor (inject_Z o / m * 30)) else 0%nat.

(** * Lists of consecutive integers and sums over them *)

Lemma zseq_length lo n : length (zseq lo n) = n.
Proof. revert lo; induction n; intros; simpl; auto. Qed.

Lemma zseq_In lo n x : In x (zseq lo n) <-> lo <= x < lo + Z.of_nat n.
Proof.
  revert lo; induction n as [|n IH]; intros lo; simpl.
  - split; [tauto | lia].
  - rewrite IH. lia.
Qed.

Lemma zseq_NoDup lo n : NoDup (zseq lo n).
Proof.
  revert lo; induction n as [|n IH]; intros lo; simpl; constructor; auto.
  rewrite zseq_In. lia.
Qed.

Lemma zseq_app lo n m :
  zseq lo (n + m) = zseq lo n ++ zseq (lo + Z.of_nat n) m.
Proof.
  revert lo; induction n as [|n IH]; intros lo.
  - simpl. f_equal. lia.
  - cbn [Nat.add zseq app]. rewrite IH. do 3 f_equal. lia.
Qed.

Lemma zseq_snoc lo n :
  zseq lo (Datatypes.S n) = zseq lo n ++ [lo + Z.of_nat n].
Proof.
  replace (Datatypes.S n) with (n + 1)%nat by lia. now rewrite zseq_app.
Qed.

Lemma zsum_ext f g l :
  (forall x, In x l -> f x = g x) -> zsum f l = zsum g l.
Proof.
  induction l as [|a l IH]; intros H; simpl; [reflexivity|].
  rewrite (H a) by (left; reflexivity).
  rewrite IH; [reflexivity|]. intros x Hx. apply H. now right.
Qed.

Lemma zsum_app f l1 l2 : zsum f (l1 ++ l2) = zsum f l1 + zsum f l2.
Proof. induction l1 as [|a l1 IH]; simpl; [reflexivity|]. rewrite IH. lia. Qed.

Lemma zsum_nonneg f l : (forall x, In x l -> 0 <= f x) -> 0 <= zsum f l.
Proof.
  induction l as [|a l IH]; intros H; simpl; [lia|].
  assert (0 <= f a) by (apply H; now left).
  assert (0 <= zsum f l) by (apply IH; intros; apply H; now right). lia.
Qed.

Lemma zsum_zero f l : (forall x, In x l -> f x = 0) -> zsum f l = 0.
Proof.
  induction l as [|a l IH]; intros H; simpl; [reflexivity|].
  rewrite (H a) by (now left). rewrite IH; [reflexivity|].
  intros; apply H; now right.
Qed.

Lemma zsum_le_const f l b :
  (forall x, In x l -> f x <= b) -> zsum f l <= Z.of_nat (length l) * b.
Proof.
  induction l as [|a l IH]; intros H; [simpl; lia|].
  cbn [zsum fold_right length]. fold (zsum f l).
  assert (f a <= b) by (apply H; now left).
  assert (zsum f l <= Z.of_nat (length l) * b) by (apply IH; intros; apply H; now right).
  lia.
Qed.

Lemma zsum_shift f lo n :
  zsum f (zseq (lo + 1) n) = zsum (fun i => f (i + 1)) (zseq lo n).
Proof.
  revert lo; induction n as [|n IH]; intros lo; [reflexivity|].
  cbn [zseq zsum fold_right]. fold (zsum f (zseq (lo + 1 + 1) n)).
  fold (zsum (fun i => f (i + 1)) (zseq (lo + 1) n)). now rewrite IH.
Qed.

Lemma zsum_snoc f lo n :
  zsum f (zseq lo (Datatypes.S n)) = zsum f (zseq lo n) + f (lo + Z.of_nat n).
Proof. rewrite zseq_snoc, zsum_app. simpl. lia. Qed.

(** Summing from the top down gives the same sum. *)
Lemma zsum_reverse f lo n :
  zsum (fun i => f (2 * lo + Z.of_nat n - 1 - i)) (zseq lo n) = zsum f (zseq lo n).
Proof.
  revert f lo; induction n as [|n IH]; intros f lo; [reflexivity|].
  rewrite zsum_snoc.
  cbn [zseq zsum fold_right]. fold (zsum f (zseq (lo + 1) n)).
  rewrite zsum_shift, <- (IH (fun i => f (i + 1)) lo).
  replace (2 * lo + Z.of_nat (Datatypes.S n) - 1 - (lo + Z.of_nat n)) with lo by lia.
  rewrite Z.add_comm. f_equal.
  apply zsum_ext. intros x _. f_equal. lia.
Qed.

(** At most one element of a duplicate-free list hits a given value. *)
Lemma zsum_indicator t l :
  NoDup l -> zsum (fun i => if t - i =? 0 then 1 else 0) l = if existsb (Z.eqb t) l then 1 else 0.
Proof.
  induction 1 as [|a l Hn Hd IH]; [reflexivity|].
  cbn [zsum fold_right existsb]. fold (zsum (fun i => if t - i =? 0 then 1 else 0) l).
  rewrite IH.
  destruct (Z.eqb_spec t a) as [->|Hne].
  - rewrite Z.sub_diag. simpl.
    destruct (existsb (Z.eqb a) l) eqn:E; [|reflexivity].
    apply existsb_exists in E. destruct E as [x [Hx Ex]].
    apply Z.eqb_eq in Ex. subst x. contradiction.
  - destruct (Z.eqb_spec (t - a) 0); [lia|]. reflexivity.
Qed.

(** * The recurrence [ways] *)

Lemma faces_In k x : In x (faces k) <-> 1 <= x <= k.
Proof. unfold faces. rewrite zseq_In. lia. Qed.

Lemma faces_length k : Z.of_nat (length (faces k)) = Z.max 0 k.
Proof. unfold faces. rewrite zseq_length. lia. Qed.

Lemma ways_nonneg n t k : 0 <= ways n t k.
Proof.
  revert t; induction n as [|n IH]; intros t; simpl.
  - destruct (t =? 0); lia.
  - apply zsum_nonneg. intros; apply IH.
Qed.

Lemma ways_low n t k : t < Z.of_nat n -> ways n t k = 0.
Proof.
  revert t; induction n as [|n IH]; intros t Ht; simpl.
  - destruct (Z.eqb_spec t 0); [lia | reflexivity].
  - apply zsum_zero. intros i Hi. apply faces_In in Hi. apply IH. lia.
Qed.

Lemma ways_high n t k : Z.of_nat n * k < t -> ways n t k = 0.
Proof.
  revert t; induction n as [|n IH]; intros t Ht; simpl.
  - destruct (Z.eqb_spec t 0); [lia | reflexivity].
  - apply zsum_zero. intros i Hi. apply faces_In in Hi. apply IH. nia.
Qed.

Lemma ways_one t k : ways 1 t k = if (1 <=? t) && (t <=? k) then 1 else 0.
Proof.
  cbn [ways].
  rewrite zsum_indicator by apply zseq_NoDup.
  destruct (existsb (Z.eqb t) (faces k)) eqn:E.
  - apply existsb_exists in E. destruct E as [x [Hx Ex]].
    apply Z.eqb_eq in Ex. subst x. apply faces_In in Hx.
    destruct (Z.leb_spec 1 t); [|lia]. destruct (Z.leb_spec t k); [|lia]. reflexivity.
  - destruct (Z.leb_spec 1 t); [|reflexivity].
    destruct (Z.leb_spec t k); [|reflexivity].
    assert (existsb (Z.eqb t) (faces k) = true); [|congruence].
    apply existsb_exists. exists t. split; [apply faces_In; lia | apply Z.eqb_refl].
Qed.

(** Once all dice but one are chosen the last one is forced. *)
Lemma ways_bound n t k : 0 <= k -> ways (Datatypes.S n) t k <= k ^ Z.of_nat n.
Proof.
  intros Hk. revert t; induction n as [|n IH]; intros t.
  - rewrite ways_one. destruct ((1 <=? t) && (t <=? k)); simpl; lia.
  - change (ways (Datatypes.S (Datatypes.S n)) t k)
      with (zsum (fun i => ways (Datatypes.S n) (t - i) k) (faces k)).
    rewrite Nat2Z.inj_succ, Z.pow_succ_r by lia.
    etransitivity; [apply zsum_le_const; intros; apply IH|].
    rewrite faces_length. lia.
Qed.

(** Reflection: replacing every face [f] by [k + 1 - f]. *)
Lemma ways_sym n t k : ways n (Z.of_nat n * (k + 1) - t) k = ways n t k.
Proof.
  revert t; induction n as [|n IH]; intros t.
  - simpl. destruct (Z.eqb_spec (- t) 0), (Z.eqb_spec t 0); lia.
  - cbn [ways]. unfold faces.
    rewrite <- (zsum_reverse (fun i => ways n (t - i) k) 1 (Z.to_nat k)).
    apply zsum_ext. intros i Hi. apply zseq_In in Hi.
    rewrite <- IH. f_equal. lia.
Qed.

Lemma ways_all_ones n k : 1 <= k -> ways n (Z.of_nat n) k = 1.
Proof.
  intros Hk. induction n as [|n IH]; [reflexivity|].
  cbn [ways]. unfold faces.
  destruct (Z.to_nat k) as [|m] eqn:E; [lia|].
  cbn [zseq zsum fold_right].
  replace (Z.of_nat (Datatypes.S n) - 1) with (Z.of_nat n) by lia.
  rewrite IH.
  fold (zsum (fun i => ways n (Z.of_nat (Datatypes.S n) - i) k) (zseq (1 + 1) m)).
  rewrite zsum_zero; [reflexivity|].
  intros i Hi. apply zseq_In in Hi. apply ways_low. lia.
Qed.

(** * The tuples and their count *)

Lemma tuples_In n k l :
  In l (tuples n k) <-> length l = n /\ Forall (fun f => 1 <= f <= k) l.
Proof.
  revert l; induction n as [|n IH]; intros l; simpl.
  - split.
    + intros [<-|[]]. split; [reflexivity | constructor].
    + intros [H _]. left. destruct l; [reflexivity | discriminate].
  - rewrite in_flat_map. split.
    + intros [f [Hf Hl]]. apply in_map_iff in Hl. destruct Hl as [r [<- Hr]].
      apply IH in Hr. destruct Hr as [Hlen Hall]. apply faces_In in Hf.
      split; [simpl; congruence | constructor; assumption].
    + intros [Hlen Hall]. destruct l as [|f r]; [discriminate|].
      inversion Hall; subst. exists f. split; [now apply faces_In|].
      apply in_map. apply IH. split; [simpl in Hlen; congruence | assumption].
Qed.

Lemma tuples_NoDup n k : NoDup (tuples n k).
Proof.
  induction n as [|n IH]; simpl.
  - constructor; [intros [] | constructor].
  - unfold faces. generalize (zseq_NoDup 1 (Z.to_nat k)).
    generalize (zseq 1 (Z.to_nat k)) as fs.
    induction fs as [|f fs IHfs]; intros Hnd; simpl; [constructor|].
    inversion Hnd as [|? ? Hnotin Hnd']; subst.
    apply NoDup_app.
    + apply Injective_map_NoDup; [|assumption].
      intros x y E. now inversion E.
    + now apply IHfs.
    + intros l H1 H2. apply in_map_iff in H1. destruct H1 as [r [<- _]].
      apply in_flat_map in H2. destruct H2 as [g [Hg Hr]].
      apply in_map_iff in Hr. destruct Hr as [r' [E _]].
      inversion E; subst. contradiction.
Qed.

Lemma count_tuples_ways n t k : count_tuples n t k = ways n t k.
Proof.
  unfold count_tuples. revert t; induction n as [|n IH]; intros t.
  - cbn [tuples ways filter total fold_right].
    destruct (Z.eqb_spec 0 t), (Z.eqb_spec t 0); try lia; reflexivity.
  - cbn [tuples ways]. generalize (faces k) as fs.
    induction fs as [|f fs IHfs]; [reflexivity|].
    cbn [flat_map zsum fold_right].
    rewrite filter_app, length_app, Nat2Z.inj_add.
    fold (zsum (fun i => ways n (t - i) k) fs). rewrite IHfs. f_equal.
    rewrite <- IH. f_equal.
    generalize (tuples n k) as ls.
    induction ls as [|l ls IHls]; [reflexivity|].
    cbn [map filter total fold_right]. fold (total l).
    replace (f + total l =? t) with (total l =? t - f)
      by (destruct (Z.eqb_spec (total l) (t - f)), (Z.eqb_spec (f + total l) t); lia).
    destruct (total l =? t - f); simpl; now rewrite IHls.
Qed.

Lemma zsum_add f g l : zsum (fun x => f x + g x) l = zsum f l + zsum g l.
Proof.
  induction l as [|a l IH]; [reflexivity|].
  cbn [zsum fold_right]. fold (zsum (fun x => f x + g x) l) (zsum f l) (zsum g l).
  rewrite IH. lia.
Qed.

Lemma zsum_hit v lo n :
  lo <= v < lo + Z.of_nat n ->
  zsum (fun t => if v =? t then 1 else 0) (zseq lo n) = 1.
Proof.
  intros Hv.
  rewrite (zsum_ext _ (fun i => if v - i =? 0 then 1 else 0)).
  - rewrite zsum_indicator by apply zseq_NoDup.
    replace (existsb (Z.eqb v) (zseq lo n)) with true; [reflexivity|].
    symmetry. apply existsb_exists. exists v.
    split; [now apply zseq_In | apply Z.eqb_refl].
  - intros x _. destruct (Z.eqb_spec v x), (Z.eqb_spec (v - x) 0); lia.
Qed.

(** Sorting the elements of a list by a key in [lo, lo + n) loses none. *)
Lemma zsum_classes {A : Type} (key : A -> Z) (L : list A) lo n :
  (forall x, In x L -> lo <= key x < lo + Z.of_nat n) ->
  zsum (fun t => Z.of_nat (length (filter (fun x => key x =? t) L))) (zseq lo n)
  = Z.of_nat (length L).
Proof.
  induction L as [|a L IH]; intros H.
  - simpl. apply zsum_zero. reflexivity.
  - rewrite (zsum_ext _ (fun t => (if key a =? t then 1 else 0)
        + Z.of_nat (length (filter (fun x => key x =? t) L)))).
    + rewrite zsum_add, IH, zsum_hit.
      * simpl length. lia.
      * apply H. now left.
      * intros; apply H; now right.
    + intros t _. cbn [filter]. destruct (key a =? t); simpl length; lia.
Qed.

Lemma tuples_length n k : 0 <= k -> Z.of_nat (length (tuples n k)) = k ^ Z.of_nat n.
Proof.
  intros Hk. induction n as [|n IH]; [reflexivity|].
  rewrite Nat2Z.inj_succ, Z.pow_succ_r by lia. rewrite <- IH.
  assert (E : k = Z.of_nat (length (faces k))) by (rewrite faces_length; lia).
  rewrite E at 2. cbn [tuples].
  generalize (faces k) as fs. induction fs as [|f fs IHfs]; [reflexivity|].
  cbn [flat_map length]. rewrite length_app, length_map, Nat2Z.inj_add, IHfs. lia.
Qed.

Lemma tuples_total_range n k l :
  In l (tuples n k) -> Z.of_nat n <= total l <= Z.of_nat n * k.
Proof.
  rewrite tuples_In. intros [<- Hall].
  induction Hall as [|f r Hf Hr IH]; [simpl; lia|].
  cbn [length total fold_right]. fold (total r). rewrite Nat2Z.inj_succ. nia.
Qed.

(** Every one of the [k ^ n] outcomes has its sum in [n, n * k]. *)
Lemma ways_sum_all n k :
  0 <= k ->
  zsum (fun t => ways n t k) (zseq (Z.of_nat n) (Z.to_nat (Z.of_nat n * k + 1 - Z.of_nat n)))
  = k ^ Z.of_nat n.
Proof.
  intros Hk. rewrite <- tuples_length by assumption.
  rewrite <- (zsum_classes total (tuples n k) (Z.of_nat n)
                (Z.to_nat (Z.of_nat n * k + 1 - Z.of_nat n))).
  - apply zsum_ext. intros t _. symmetry. apply count_tuples_ways.
  - intros l Hl. apply tuples_total_range in Hl. lia.
Qed.

(** * Range checks *)

Lemma int_of_in z : INT_MIN <= z <= INT_MAX -> int_of z = Ret z.
Proof.
  intros H. unfold int_of, in_int.
  destruct (Z.leb_spec INT_MIN z); [|lia]. destruct (Z.leb_spec z INT_MAX); [|lia].
  reflexivity.
Qed.

Lemma int_of_out z : z < INT_MIN \/ INT_MAX < z -> int_of z = Undefined.
Proof.
  intros H. unfold int_of, in_int.
  destruct (Z.leb_spec INT_MIN z); [|reflexivity].
  destruct (Z.leb_spec z INT_MAX); [lia|reflexivity].
Qed.

Lemma llong_of_in z : LLONG_MIN <= z <= LLONG_MAX -> llong_of z = Ret z.
Proof.
  intros H. unfold llong_of, in_llong.
  destruct (Z.leb_spec LLONG_MIN z); [|lia]. destruct (Z.leb_spec z LLONG_MAX); [|lia].
  reflexivity.
Qed.

Lemma llong_of_out z : z < LLONG_MIN \/ LLONG_MAX < z -> llong_of z = Undefined.
Proof.
  intros H. unfold llong_of, in_llong.
  destruct (Z.leb_spec LLONG_MIN z); [|reflexivity].
  destruct (Z.leb_spec z LLONG_MAX); [lia|reflexivity].
Qed.

Lemma int_of_fuel z : int_of z <> OutOfFuel.
Proof. unfold int_of. destruct (in_int z); discriminate. Qed.

Lemma llong_of_fuel z : llong_of z <> OutOfFuel.
Proof. unfold llong_of. destruct (in_llong z); discriminate. Qed.

Lemma in_int_iff z : in_int z = true <-> INT_MIN <= z <= INT_MAX.
Proof. unfold in_int. rewrite andb_true_iff, !Z.leb_le. tauto. Qed.

(** * Loops *)

Section Loops.

Context {S : Type}.
Variable chk : Z -> outcome Z.
Variable hi : Z.

Lemma for_loop_test_ext n c (t1 t2 : Z -> bool) (body : Z -> S -> outcome S) s :
  (forall x, t1 x = t2 x) ->
  for_loop chk n c t1 body s = for_loop chk n c t2 body s.
Proof.
  intros E. revert c s; induction n as [|n IH]; intros c s; simpl; rewrite E.
  - reflexivity.
  - destruct (t2 c); [|reflexivity].
    destruct (body c s); simpl; try reflexivity.
    destruct (chk (c + 1)); simpl; auto.
Qed.

(** The invariant rule: a body that keeps [I] and returns, under a counter
    that stays in range, makes the loop return with [I] at its exit. *)
Lemma for_loop_inv (I : Z -> S -> Prop) (body : Z -> S -> outcome S) lo :
  (forall c, lo <= c <= hi -> chk (c + 1) = Ret (c + 1)) ->
  (forall c s, lo <= c <= hi -> I c s -> exists s', body c s = Ret s' /\ I (c + 1) s') ->
  forall n c s,
    Z.of_nat n = Z.max 0 (hi + 1 - c) -> lo <= c -> I c s ->
    exists s', for_loop chk n c (fun c => c <=? hi) body s = Ret s' /\ I (Z.max c (hi + 1)) s'.
Proof.
  intros Hchk Hbody. induction n as [|n IH]; intros c s Hn Hc HI; cbn [for_loop].
  - destruct (Z.leb_spec c hi); [lia|]. exists s. split; [reflexivity|].
    now rewrite Z.max_l by lia.
  - destruct (Z.leb_spec c hi); [|lia].
    destruct (Hbody c s) as [s' [E HI']]; [lia | assumption |].
    rewrite E, Hchk by lia. simpl.
    destruct (IH (c + 1) s') as [s'' [E' HI'']]; [lia | lia | assumption |].
    exists s''. split; [assumption|].
    replace (Z.max c (hi + 1)) with (Z.max (c + 1) (hi + 1)) by lia. assumption.
Qed.

Hypothesis chk_id : forall z z', chk z = Ret z' -> z' = z.
Hypothesis chk_fuel : forall z, chk z <> OutOfFuel.

Lemma for_loop_ext (b1 b2 : Z -> S -> outcome S) lo :
  (forall c s, lo <= c <= hi -> b1 c s = b2 c s) ->
  forall n c s, lo <= c ->
    for_loop chk n c (fun c => c <=? hi) b1 s = for_loop chk n c (fun c => c <=? hi) b2 s.
Proof.
  intros E. induction n as [|n IH]; intros c s Hc; cbn [for_loop].
  - reflexivity.
  - destruct (Z.leb_spec c hi); [|reflexivity].
    rewrite E by lia. destruct (b2 c s); simpl; try reflexivity.
    destruct (chk (c + 1)) as [c'| |] eqn:Ec; simpl; try reflexivity.
    apply chk_id in Ec. subst c'. apply IH. lia.
Qed.

(** With the iteration bound the test allows, the bound is never what
    stops the loop. *)
Lemma for_loop_fuel (body : Z -> S -> outcome S) lo :
  (forall c s, lo <= c <= hi -> body c s <> OutOfFuel) ->
  forall n c s,
    Z.of_nat n = Z.max 0 (hi + 1 - c) -> lo <= c ->
    for_loop chk n c (fun c => c <=? hi) body s <> OutOfFuel.
Proof.
  intros Hb. induction n as [|n IH]; intros c s Hn Hc; cbn [for_loop].
  - destruct (Z.leb_spec c hi); [lia | discriminate].
  - destruct (Z.leb_spec c hi); [|discriminate].
    destruct (body c s) as [s'| |] eqn:Eb; simpl; try discriminate.
    + destruct (chk (c + 1)) as [c'| |] eqn:Ec; simpl; try discriminate.
      * apply chk_id in Ec. subst c'. apply IH; lia.
      * now apply chk_fuel in Ec.
    + exfalso. apply (Hb c s); [lia | assumption].
Qed.

End Loops.

Lemma int_of_id z z' : int_of z = Ret z' -> z' = z.
Proof. unfold int_of. destruct (in_int z); congruence. Qed.

Lemma llong_of_id z z' : llong_of z = Ret z' -> z' = z.
Proof. unfold llong_of. destruct (in_llong z); congruence. Qed.

Lemma for_lt_le {S : Type} chk lo hi (body : Z -> S -> outcome S) s :
  for_lt chk lo hi body s = for_le chk lo (hi - 1) body s.
Proof.
  unfold for_lt, for_le. replace (hi - 1 + 1 - lo) with (hi - lo) by lia.
  apply for_loop_test_ext. intros x.
  destruct (Z.ltb_spec x hi), (Z.leb_spec x (hi - 1)); try lia; reflexivity.
Qed.

(** A loop that adds non-negative terms to a [long long]: it returns the
    whole sum when that fits, and is undefined when it does not. *)
Lemma for_loop_accumulate (g : Z -> Z) (body : Z -> Z -> outcome Z) lo hi :
  hi < INT_MAX -> INT_MIN <= lo ->
  (forall i, lo <= i <= hi -> 0 <= g i) ->
  (forall i s, lo <= i <= hi -> 0 <= s <= LLONG_MAX -> body i s = llong_of (s + g i)) ->
  forall n c tot,
    Z.of_nat n = Z.max 0 (hi + 1 - c) -> lo <= c -> 0 <= tot <= LLONG_MAX ->
    for_loop int_of n c (fun c => c <=? hi) body tot = llong_of (tot + zsum g (zseq c n)).
Proof.
  intros Hhi Hlo Hg Hb. induction n as [|n IH]; intros c tot Hn Hc Htot; cbn [for_loop zseq zsum fold_right].
  - destruct (Z.leb_spec c hi); [lia|]. rewrite Z.add_0_r, llong_of_in; [reflexivity|].
    unfold LLONG_MIN; lia.
  - destruct (Z.leb_spec c hi); [|lia].
    fold (zsum g (zseq (c + 1) n)).
    assert (0 <= g c) by (apply Hg; lia).
    assert (0 <= zsum g (zseq (c + 1) n)).
    { apply zsum_nonneg. intros x Hx. apply zseq_In in Hx. apply Hg. lia. }
    rewrite Hb by lia.
    destruct (Z.leb_spec (tot + g c) LLONG_MAX).
    + rewrite llong_of_in by (unfold LLONG_MIN; lia). cbn [bind].
      rewrite int_of_in by lia. cbn [bind].
      rewrite IH by lia. f_equal. lia.
    + rewrite !llong_of_out by lia. reflexivity.
Qed.

(** [for (i = lo; i <= INT_MAX; i++)] increments its counter past [INT_MAX]. *)
Lemma for_loop_counter_overflow {S : Type} (body : Z -> S -> outcome S) lo :
  INT_MIN <= lo ->
  (forall c s, lo <= c <= INT_MAX -> body c s <> OutOfFuel) ->
  forall n c s,
    Z.of_nat n = INT_MAX + 1 - c -> lo <= c <= INT_MAX ->
    for_loop int_of n c (fun c => c <=? INT_MAX) body s = Undefined.
Proof.
  intros Hlo Hb. induction n as [|n IH]; intros c s Hn Hc; cbn [for_loop].
  - lia.
  - destruct (Z.leb_spec c INT_MAX); [|lia].
    destruct (body c s) as [s'| |] eqn:Eb; simpl; try reflexivity.
    + destruct (Z.eq_dec c INT_MAX) as [->|Hne].
      * rewrite int_of_out by lia. reflexivity.
      * rewrite int_of_in by (unfold INT_MIN, INT_MAX in *; lia). simpl.
        apply IH; lia.
    + exfalso. apply (Hb c s); [lia | assumption].
Qed.

(** * The engine: recursion depth *)

Lemma bind_fuel {A B : Type} (m : outcome A) (k : A -> outcome B) :
  m <> OutOfFuel -> (forall a, m = Ret a -> k a <> OutOfFuel) -> bind m k <> OutOfFuel.
Proof. destruct m; simpl; intros H1 H2; auto; discriminate. Qed.

Lemma count_depth n :
  forall fuel d t k,
    0 <= d -> Z.to_nat d = n -> (n < fuel)%nat ->
    count_sum_combinations_recursive fuel d t k <> OutOfFuel.
Proof.
  induction n as [|n IH]; intros fuel d t k Hd Hn Hf;
    (destruct fuel as [|fuel]; [lia|]); cbn [count_sum_combinations_recursive].
  - destruct (t <? d); [discriminate|].
    apply bind_fuel; [apply int_of_fuel|]. intros p _.
    destruct (t >? p); [discriminate|].
    destruct (Z.eqb_spec d 0); [discriminate | lia].
  - destruct (t <? d); [discriminate|].
    apply bind_fuel; [apply int_of_fuel|]. intros p _.
    destruct (t >? p); [discriminate|].
    destruct (Z.eqb_spec d 0); [discriminate|].
    apply (for_loop_fuel int_of k int_of_id int_of_fuel _ 1); [|lia|lia].
    intros c s _.
    apply bind_fuel; [apply int_of_fuel|]. intros d' Ed. apply int_of_id in Ed. subst d'.
    apply bind_fuel; [apply int_of_fuel|]. intros t' _.
    apply bind_fuel; [|intros; apply llong_of_fuel].
    apply IH; lia.
Qed.

Lemma count_fuel_irrelevant n :
  forall f1 f2 d t k,
    0 <= d -> Z.to_nat d = n -> (n < f1)%nat -> (n < f2)%nat ->
    count_sum_combinations_recursive f1 d t k = count_sum_combinations_recursive f2 d t k.
Proof.
  induction n as [|n IH]; intros f1 f2 d t k Hd Hn H1 H2;
    (destruct f1 as [|f1]; [lia|]); (destruct f2 as [|f2]; [lia|]);
    cbn [count_sum_combinations_recursive];
    destruct (t <? d); try reflexivity;
    destruct (int_of (d * k)) as [p| |]; simpl; try reflexivity;
    destruct (t >? p); try reflexivity;
    destruct (Z.eqb_spec d 0); try reflexivity; try lia.
  apply (for_loop_ext int_of k int_of_id _ _ 1); [|lia].
  intros c s _.
  destruct (int_of (d - 1)) as [d'| |] eqn:Ed; simpl; try reflexivity.
  apply int_of_id in Ed. subst d'.
  destruct (int_of (t - c)) as [t'| |]; simpl; try reflexivity.
  rewrite (IH f1 f2) by lia. reflexivity.
Qed.

(** * The engine: its outcome in closed form *)

Lemma bind_llong_add s w :
  0 <= s <= LLONG_MAX -> 0 <= w ->
  (r <- llong_of w ;; llong_of (s + r)) = llong_of (s + w).
Proof.
  intros Hs Hw. destruct (Z.leb_spec w LLONG_MAX).
  - rewrite (llong_of_in w) by (unfold LLONG_MIN; lia). reflexivity.
  - rewrite !llong_of_out by lia. reflexivity.
Qed.

Lemma count_outcome n :
  forall fuel t k,
    (n < fuel)%nat -> 1 <= k <= INT_MAX ->
    count_sum_combinations_recursive fuel (Z.of_nat n) t k =
      if t <? Z.of_nat n then Ret 0
      else if INT_MAX <? Z.of_nat n * k then Undefined
      else if (0 <? Z.of_nat n) && (t <=? Z.of_nat n * k) && (k =? INT_MAX) then Undefined
      else llong_of (ways n t k).
Proof.
  induction n as [|n IH]; intros fuel t k Hf Hk;
    (destruct fuel as [|fuel]; [lia|]); cbn [count_sum_combinations_recursive].
  - change (Z.of_nat 0) with 0. cbn [Z.mul Z.ltb Z.compare andb ways].
    destruct (Z.ltb_spec t 0); [reflexivity|].
    replace (INT_MAX <? 0) with false by reflexivity.
    rewrite int_of_in by (unfold INT_MIN, INT_MAX; lia). cbn [bind].
    destruct (Z.gtb_spec t 0).
    + destruct (Z.eqb_spec t 0); [lia | reflexivity].
    + cbn [Z.eqb]. destruct (Z.eqb_spec t 0); reflexivity.
  - set (d := Z.of_nat (Datatypes.S n)). assert (Hd : 1 <= d) by lia.
    destruct (Z.ltb_spec t d); [reflexivity|].
    destruct (Z.ltb_spec INT_MAX (d * k)); [now rewrite int_of_out by lia|].
    rewrite int_of_in by (unfold INT_MIN; nia). cbn [bind].
    destruct (Z.ltb_spec 0 d); [|lia]. cbn [andb].
    destruct (Z.gtb_spec t (d * k)).
    { destruct (Z.leb_spec t (d * k)); [lia|]. cbn [andb].
      rewrite ways_high by (fold d; lia). reflexivity. }
    destruct (Z.leb_spec t (d * k)); [|lia]. cbn [andb].
    destruct (Z.eqb_spec d 0); [lia|].
    unfold for_le. replace (k + 1 - 1) with k by lia.
    destruct (Z.eqb_spec k INT_MAX) as [->|Hne].
    + apply (for_loop_counter_overflow _ 1); [unfold INT_MIN; lia | |lia|unfold INT_MAX; lia].
      intros c s _.
      apply bind_fuel; [apply int_of_fuel|]. intros d' Ed. apply int_of_id in Ed. subst d'.
      apply bind_fuel; [apply int_of_fuel|]. intros t' _.
      apply bind_fuel; [|intros; apply llong_of_fuel].
      apply (count_depth n); lia.
    + rewrite (for_loop_accumulate (fun i => ways n (t - i) k) _ 1 k);
        try lia; try (unfold INT_MIN; lia); try (unfold LLONG_MAX; lia).
      * reflexivity.
      * intros; apply ways_nonneg.
      * intros i s Hi Hs.
        rewrite int_of_in by (unfold INT_MIN; lia). cbn [bind].
        rewrite int_of_in by (unfold INT_MIN, INT_MAX in *; lia). cbn [bind].
        replace (d - 1) with (Z.of_nat n) by lia.
        rewrite IH by lia.
        destruct (Z.ltb_spec (t - i) (Z.of_nat n)).
        { rewrite ways_low by lia. reflexivity. }
        destruct (Z.ltb_spec INT_MAX (Z.of_nat n * k)); [nia|].
        destruct (Z.eqb_spec k INT_MAX); [lia|].
        rewrite andb_false_r.
        apply bind_llong_add; [assumption | apply ways_nonneg].
Qed.

Lemma count_outcome_Z fuel d t k :
  0 <= d -> (Z.to_nat d < fuel)%nat -> 1 <= k <= INT_MAX ->
  count_sum_combinations_recursive fuel d t k =
    if t <? d then Ret 0
    else if INT_MAX <? d * k then Undefined
    else if (0 <? d) && (t <=? d * k) && (k =? INT_MAX) then Undefined
    else llong_of (ways (Z.to_nat d) t k).
Proof.
  intros Hd Hf Hk. pose proof (count_outcome (Z.to_nat d) fuel t k Hf Hk) as H.
  rewrite Z2Nat.id in H by lia. exact H.
Qed.

Lemma ways_fits n t k :
  (n <= 10)%nat -> 0 <= k <= 100 -> 0 <= ways n t k <= LLONG_MAX.
Proof.
  intros Hn Hk. split; [apply ways_nonneg|].
  destruct n as [|m].
  - simpl. destruct (t =? 0); unfold LLONG_MAX; lia.
  - etransitivity; [apply ways_bound; lia|].
    destruct (Z.eq_dec k 0) as [->|Hk0].
    + destruct m; [simpl; unfold LLONG_MAX; lia|].
      rewrite Z.pow_0_l by lia. unfold LLONG_MAX; lia.
    + etransitivity; [apply (Z.pow_le_mono k (Z.of_nat m) 100 9); lia|].
      unfold LLONG_MAX. simpl. lia.
Qed.

(** For the configurations the program accepts the engine returns the
    recurrence's value. *)
Lemma count_valid fuel d t k :
  0 <= d <= 10 -> 2 <= k <= 100 -> (Z.to_nat d < fuel)%nat ->
  count_sum_combinations_recursive fuel d t k = Ret (ways (Z.to_nat d) t k).
Proof.
  intros Hd Hk Hf.
  rewrite count_outcome_Z by (unfold INT_MAX; lia).
  destruct (Z.ltb_spec t d); [now rewrite ways_low by lia|].
  destruct (Z.ltb_spec INT_MAX (d * k)); [unfold INT_MAX in *; nia|].
  destruct (Z.eqb_spec k INT_MAX); [unfold INT_MAX in *; lia|].
  rewrite andb_false_r. apply llong_of_in.
  pose proof (ways_fits (Z.to_nat d) t k). unfold LLONG_MIN. lia.
Qed.

(** * The claims on the combinatorics engine *)

(** C1, as stated, fails: with 2 dice of 1073741824 sides and target 2 there
    is exactly one tuple (both dice show 1), but the pruning test multiplies
    2 by 1073741824 in [int], which overflows (a compiler that wraps gets
    -2147483648 and returns 0); no budget makes the engine return 1. *)
Lemma count_exact_counterexample :
  count_tuples 2 2 1073741824 = 1 /\
  in_int 2 = true /\ in_int 1073741824 = true /\
  count_sum_combinations_recursive 3 2 2 1073741824 = Undefined /\
  (forall fuel, count_sum_combinations_recursive fuel 2 2 1073741824 <> Ret 1).
Proof.
  split; [|split; [reflexivity|split; [reflexivity|split; [reflexivity|]]]].
  - rewrite count_tuples_ways. apply (ways_all_ones 2). lia.
  - intros [|fuel]; cbn; discriminate.
Qed.

(** C1 (amended): for every [dice_remaining >= 0], [sides_count >= 2] and
    integer [target_sum] such that [dice_remaining * sides_count] fits in
    [int], [sides_count < INT_MAX] and the number of tuples fits in
    [long long], the engine returns exactly the number of tuples of
    [dice_remaining] face values, each in [1, sides_count], whose sum is
    [target_sum]; this covers every [dice_remaining <= 10] and
    [sides_count <= 100], the ranges the input loop lets through. *)
Theorem count_exact fuel d t k :
  0 <= d -> 2 <= k -> (Z.to_nat d < fuel)%nat ->
  (d * k <= INT_MAX -> k < INT_MAX -> count_tuples (Z.to_nat d) t k <= LLONG_MAX ->
   count_sum_combinations_recursive fuel d t k = Ret (count_tuples (Z.to_nat d) t k)) /\
  (d <= 10 -> k <= 100 ->
   count_sum_combinations_recursive fuel d t k = Ret (count_tuples (Z.to_nat d) t k)).
Proof.
  intros Hd Hk Hf. rewrite count_tuples_ways. split.
  - intros Hdk Hk' Hfit.
    rewrite count_outcome_Z by lia.
    destruct (Z.ltb_spec t d); [now rewrite ways_low by lia|].
    destruct (Z.ltb_spec INT_MAX (d * k)); [lia|].
    destruct (Z.eqb_spec k INT_MAX); [lia|].
    rewrite andb_false_r. apply llong_of_in.
    pose proof (ways_nonneg (Z.to_nat d) t k). unfold LLONG_MIN. lia.
  - intros Hd' Hk'. apply count_valid; lia.
Qed.

Lemma count_exact_witness :
  count_sum_combinations_recursive 3 2 7 6 = Ret (count_tuples (Z.to_nat 2) 7 6).
Proof.
  apply (proj2 (count_exact 3 2 7 6 ltac:(lia) ltac:(lia) ltac:(simpl; lia))); lia.
Defined.

(** C2: for [dice_remaining >= 0], [sides_count >= 2] and any [int]
    [target_sum], the engine returns 0 at once when
    [target_sum < dice_remaining] or [target_sum > dice_remaining * sides_count],
    and with no dice left it returns 1 for target 0 and 0 otherwise. *)
Theorem count_pruning fuel d t k :
  0 <= d -> 2 <= k -> in_int t = true ->
  (t < d \/ t > d * k ->
     count_sum_combinations_recursive (Datatypes.S fuel) d t k = Ret 0) /\
  (d = 0 ->
     count_sum_combinations_recursive (Datatypes.S fuel) d t k
     = Ret (if t =? 0 then 1 else 0)).
Proof.
  intros Hd Hk Ht. apply in_int_iff in Ht. cbn [count_sum_combinations_recursive].
  split.
  - intros H. destruct (Z.ltb_spec t d); [reflexivity|].
    rewrite int_of_in by (unfold INT_MIN; nia). cbn [bind].
    destruct (Z.gtb_spec t (d * k)); [reflexivity | lia].
  - intros ->. cbn [Z.mul]. rewrite int_of_in by (unfold INT_MIN, INT_MAX; lia).
    cbn [bind Z.eqb].
    destruct (Z.ltb_spec t 0); [destruct (Z.eqb_spec t 0); [lia | reflexivity]|].
    destruct (Z.gtb_spec t 0); [destruct (Z.eqb_spec t 0); [lia | reflexivity]|].
    reflexivity.
Qed.

Lemma count_pruning_witness :
  count_sum_combinations_recursive 1 2 13 6 = Ret 0 /\
  count_sum_combinations_recursive 1 0 0 6 = Ret 1.
Proof.
  split.
  - apply (proj1 (count_pruning 0 2 13 6 ltac:(lia) ltac:(lia) eq_refl)). lia.
  - apply (proj2 (count_pruning 0 0 0 6 ltac:(lia) ltac:(lia) eq_refl)). reflexivity.
Defined.

(** C6: for [dice_count >= 0], [sides_count >= 2] and every sum [s] in
    [dice_count, dice_count * sides_count], the engine's outcome at [s] is
    its outcome at the reflected sum [dice_count * (sides_count + 1) - s];
    for [dice_count <= 10] and [sides_count <= 100] that outcome is a
    value. *)
Theorem count_symmetric fuel d s k :
  0 <= d -> 2 <= k -> in_int k = true -> d <= s <= d * k ->
  (Z.to_nat d < fuel)%nat ->
  count_sum_combinations_recursive fuel d s k
  = count_sum_combinations_recursive fuel d (d * (k + 1) - s) k /\
  (d <= 10 -> k <= 100 ->
   exists v, count_sum_combinations_recursive fuel d s k = Ret v).
Proof.
  intros Hd Hk Hik Hs Hf. apply in_int_iff in Hik. split.
  - rewrite !count_outcome_Z by lia.
    destruct (Z.ltb_spec s d); [lia|].
    destruct (Z.ltb_spec (d * (k + 1) - s) d); [lia|].
    destruct (Z.leb_spec s (d * k)); [|lia].
    destruct (Z.leb_spec (d * (k + 1) - s) (d * k)); [|lia].
    rewrite <- (ways_sym (Z.to_nat d) s k).
    rewrite Z2Nat.id by lia. reflexivity.
  - intros Hd' Hk'. eexists. apply count_valid; lia.
Qed.

Lemma count_symmetric_witness :
  count_sum_combinations_recursive 3 2 4 6
  = count_sum_combinations_recursive 3 2 (2 * (6 + 1) - 4) 6 /\
  (2 <= 10 -> 6 <= 100 ->
   exists v, count_sum_combinations_recursive 3 2 4 6 = Ret v).
Proof.
  apply (count_symmetric 3 2 4 6); try lia; reflexivity.
Defined.

(** C8: the known values 2d6 -> 7 in 6 ways, 1d6 -> 3 in 1 way,
    3d6 -> 3 in 1 way, 2d6 -> 13 in no way. *)
Theorem count_known_values :
  count_sum_combinations_recursive 3 2 7 6 = Ret 6 /\
  count_sum_combinations_recursive 2 1 3 6 = Ret 1 /\
  count_sum_combinations_recursive 4 3 3 6 = Ret 1 /\
  count_sum_combinations_recursive 3 2 13 6 = Ret 0.
Proof. repeat split; vm_compute; reflexivity. Qed.

(** C9: for [dice_remaining >= 0] the recursion is never deeper than
    [dice_remaining] calls below the first one: a budget of
    [dice_remaining + 1] nested activations is never exhausted, and any
    larger budget gives the same outcome; for the valid configurations
    ([dice_remaining <= 10], [sides_count] in [2, 100]) 11 activations
    are enough and the engine returns a value. *)
Theorem count_terminates fuel d t k :
  0 <= d -> (Z.to_nat d < fuel)%nat ->
  count_sum_combinations_recursive fuel d t k <> OutOfFuel /\
  count_sum_combinations_recursive fuel d t k
  = count_sum_combinations_recursive (Datatypes.S (Z.to_nat d)) d t k /\
  (d <= 10 -> 2 <= k <= 100 ->
   exists v, count_sum_combinations_recursive 11 d t k = Ret v).
Proof.
  intros Hd Hf. split; [|split].
  - now apply (count_depth (Z.to_nat d)).
  - apply (count_fuel_irrelevant (Z.to_nat d)); lia.
  - intros Hd' Hk. eexists. apply count_valid; lia.
Qed.

Lemma count_terminates_witness :
  count_sum_combinations_recursive 11 10 35 6 <> OutOfFuel /\
  count_sum_combinations_recursive 11 10 35 6
  = count_sum_combinations_recursive (Datatypes.S (Z.to_nat 10)) 10 35 6 /\
  (10 <= 10 -> 2 <= 6 <= 100 ->
   exists v, count_sum_combinations_recursive 11 10 35 6 = Ret v).
Proof.
  apply (count_terminates 11 10 35 6); [lia | simpl; lia].
Defined.

(** * Arrays *)

Lemma list_upd_length {A : Type} (a : list A) n x : length (list_upd a n x) = length a.
Proof.
  revert n; induction a as [|y a IH]; intros n; [reflexivity|].
  destruct n; simpl; [reflexivity | now rewrite IH].
Qed.

Lemma nth_list_upd {A : Type} (d : A) (a : list A) n m x :
  nth m (list_upd a n x) d = if (Nat.eqb m n) && (Nat.ltb n (length a)) then x else nth m a d.
Proof.
  revert n m; induction a as [|y a IH]; intros n m.
  - simpl. rewrite andb_false_r. reflexivity.
  - destruct n, m; simpl; try reflexivity. apply IH.
Qed.

Lemma cell_upd_same {A : Type} (d : A) (a : list A) i x :
  0 <= i < Z.of_nat (length a) -> cell d (list_upd a (Z.to_nat i) x) i = x.
Proof.
  intros H. unfold cell. rewrite nth_list_upd, Nat.eqb_refl.
  destruct (Nat.ltb_spec (Z.to_nat i) (length a)); [reflexivity | lia].
Qed.

Lemma cell_upd_other {A : Type} (d : A) (a : list A) i j x :
  0 <= i -> 0 <= j -> i <> j -> cell d (list_upd a (Z.to_nat i) x) j = cell d a j.
Proof.
  intros Hi Hj Hne. unfold cell. rewrite nth_list_upd.
  destruct (Nat.eqb_spec (Z.to_nat j) (Z.to_nat i)); [lia | reflexivity].
Qed.

Lemma array_get_in {A : Type} (d : A) (a : list A) i :
  0 <= i < Z.of_nat (length a) -> array_get a i = Ret (cell d a i).
Proof.
  intros H. unfold array_get, cell. destruct (Z.leb_spec 0 i); [|lia].
  destruct (nth_error a (Z.to_nat i)) eqn:E.
  - now rewrite (nth_error_nth _ _ _ E).
  - apply nth_error_None in E. lia.
Qed.

Lemma array_set_in {A : Type} (a : list A) i x :
  0 <= i < Z.of_nat (length a) -> array_set a i x = Ret (list_upd a (Z.to_nat i) x).
Proof.
  intros H. unfold array_set. destruct (Z.leb_spec 0 i); [|lia].
  destruct (Z.ltb_spec i (Z.of_nat (length a))); [reflexivity | lia].
Qed.

Lemma calloc_length {A : Type} (z : A) n : length (calloc z n) = Z.to_nat n.
Proof. apply repeat_length. Qed.

Lemma cell_calloc {A : Type} (z : A) n i : cell z (calloc z n) i = z.
Proof. unfold cell, calloc. apply nth_repeat. Qed.

(** Adding one to a cell of the range adds one to the range's sum. *)
Lemma zsum_bump f g l i :
  NoDup l -> In i l -> g i = f i + 1 -> (forall j, In j l -> j <> i -> g j = f j) ->
  zsum g l = zsum f l + 1.
Proof.
  intros Hnd Hin Hi Ho. induction Hnd as [|a l Hn Hd IH]; [destruct Hin|].
  cbn [zsum fold_right]. fold (zsum g l) (zsum f l).
  destruct (Z.eq_dec a i) as [->|Hne].
  - rewrite Hi. rewrite (zsum_ext g f l); [lia|].
    intros x Hx. apply Ho; [now right|]. intros ->. contradiction.
  - rewrite (Ho a) by (auto; now left). destruct Hin as [->|Hin]; [contradiction|].
    rewrite IH; [lia | assumption |]. intros j Hj. apply Ho. now right.
Qed.

Lemma zsum_member_le f l i :
  (forall x, In x l -> 0 <= f x) -> In i l -> f i <= zsum f l.
Proof.
  induction l as [|a l IH]; intros Hf Hin; [destruct Hin|].
  cbn [zsum fold_right]. fold (zsum f l).
  assert (0 <= f a) by (apply Hf; now left).
  assert (0 <= zsum f l) by (apply zsum_nonneg; intros; apply Hf; now right).
  destruct Hin as [->|Hin]; [lia|].
  assert (f i <= zsum f l) by (apply IH; [intros; apply Hf; now right | assumption]).
  lia.
Qed.

Lemma range_sum_bump a lo hi i :
  0 <= lo <= i -> i <= hi -> i < Z.of_nat (length a) ->
  range_sum (list_upd a (Z.to_nat i) (cell 0 a i + 1)) lo hi = range_sum a lo hi + 1.
Proof.
  intros Hi Hhi Hlen. unfold range_sum. apply (zsum_bump _ _ _ i).
  - apply zseq_NoDup.
  - apply zseq_In. lia.
  - apply cell_upd_same. lia.
  - intros j Hj Hne. apply zseq_In in Hj. apply cell_upd_other; lia.
Qed.

(** * The simulation *)

Section Simulation.

Variable draws : nat -> Z.
Hypothesis draws_range : forall n, 0 <= draws n <= INT_MAX.

Variables d k : Z.
Hypothesis d_pos : 1 <= d.
Hypothesis k_pos : 1 <= k.
Hypothesis dk_int : d * k < INT_MAX.

(** One trial's sum lies between [d] and [d * k], and costs [d] draws. *)
Lemma roll_dice_range st :
  exists s, roll_dice draws d k st = Ret (s, (st + Z.to_nat d)%nat) /\ d <= s <= d * k.
Proof.
  assert (Hd : d <= d * k) by nia.
  assert (Hk : k <= d * k) by nia.
  unfold roll_dice. rewrite for_lt_le. unfold for_le.
  destruct (for_loop_inv int_of (d - 1)
              (fun c p => c <= fst p <= c * k /\ snd p = (st + Z.to_nat c)%nat)
              (fun _ '(current_sum, st0) =>
                 r <- int_rem (draws st0) k ;;
                 face <- int_of (r + 1) ;;
                 current_sum' <- int_of (current_sum + face) ;;
                 Ret (current_sum', Datatypes.S st0)) 0) with
    (n := Z.to_nat (d - 1 + 1 - 0)) (c := 0) (s := (0, st)) as [[s st'] [E [Hs Hst]]].
  - intros c Hc. apply int_of_in. unfold INT_MIN. lia.
  - intros c [cs st0] Hc [Hcs Hst0]. cbn [fst snd] in *.
    pose proof (draws_range st0) as Hdr.
    unfold int_rem. destruct (Z.eqb_spec k 0); [lia|].
    destruct (Z.eqb_spec (draws st0) INT_MIN); [unfold INT_MIN in *; lia|].
    cbn [andb bind].
    pose proof (Z.rem_bound_pos (draws st0) k ltac:(lia) ltac:(lia)) as Hr.
    rewrite int_of_in by (unfold INT_MIN; lia). cbn [bind].
    assert (c * k + k <= d * k) by nia.
    rewrite int_of_in by (unfold INT_MIN; lia). cbn [bind].
    eexists. split; [reflexivity|]. cbn [fst snd]. split; [nia | lia].
  - lia.
  - lia.
  - cbn [fst snd]. split; [lia | simpl; lia].
  - cbn [fst snd] in *. exists s. rewrite E. split.
    + f_equal. f_equal. rewrite Hst. f_equal. lia.
    + replace (Z.max 0 (d - 1 + 1)) with d in Hs by lia. exact Hs.
Qed.

(** One trial adds one to exactly one cell, of index in [d, d * k]. *)
Lemma simulate_trial_step a st :
  d * k < Z.of_nat (length a) ->
  (forall j, d <= j <= d * k -> 0 <= cell 0 a j < LLONG_MAX) ->
  exists s, d <= s <= d * k /\
    simulate_trial draws d k a st
    = Ret (list_upd a (Z.to_nat s) (cell 0 a s + 1), (st + Z.to_nat d)%nat).
Proof.
  intros Hlen Hcells. destruct (roll_dice_range st) as [s [E Hs]].
  exists s. split; [assumption|]. unfold simulate_trial. rewrite E. cbn [bind].
  rewrite (array_get_in 0) by lia. cbn [bind].
  specialize (Hcells s Hs).
  rewrite llong_of_in by (unfold LLONG_MIN; lia). cbn [bind].
  rewrite array_set_in by lia. reflexivity.
Qed.

(** What [n] trials do to the counts. *)
Lemma trials_invariant n :
  forall a st,
    d * k < Z.of_nat (length a) ->
    (forall j, d <= j <= d * k -> 0 <= cell 0 a j) ->
    range_sum a d (d * k) + Z.of_nat n <= LLONG_MAX ->
    exists a',
      trials draws d k n a st = Ret (a', (st + n * Z.to_nat d)%nat) /\
      length a' = length a /\
      (forall j, d <= j <= d * k -> 0 <= cell 0 a' j) /\
      range_sum a' d (d * k) = range_sum a d (d * k) + Z.of_nat n /\
      (forall j, 0 <= j -> ~ d <= j <= d * k -> cell 0 a' j = cell 0 a j).
Proof.
  induction n as [|n IH]; intros a st Hlen Hnn Hsum.
  - exists a. cbn [trials]. split; [|split; [|split; [|split]]]; auto; try lia.
    f_equal. f_equal. lia.
  - assert (Hcells : forall j, d <= j <= d * k -> 0 <= cell 0 a j < LLONG_MAX).
    { intros j Hj. split; [now apply Hnn|].
      assert (cell 0 a j <= range_sum a d (d * k)); [|lia].
      apply zsum_member_le.
      - intros x Hx. apply zseq_In in Hx. apply Hnn. lia.
      - apply zseq_In. lia. }
    destruct (simulate_trial_step a st Hlen Hcells) as [s [Hs E]].
    cbn [trials]. rewrite E. cbn [bind].
    set (a1 := list_upd a (Z.to_nat s) (cell 0 a s + 1)).
    assert (Hsum1 : range_sum a1 d (d * k) = range_sum a d (d * k) + 1)
      by (apply range_sum_bump; lia).
    assert (Hcell1 : forall j, 0 <= j -> j <> s -> cell 0 a1 j = cell 0 a j)
      by (intros; apply cell_upd_other; lia).
    destruct (IH a1 (st + Z.to_nat d)%nat) as [a' [E' [Hlen' [Hnn' [Hsum' Hout']]]]].
    + unfold a1. rewrite list_upd_length. assumption.
    + intros j Hj. destruct (Z.eq_dec j s) as [->|Hne].
      * unfold a1. rewrite cell_upd_same by lia. specialize (Hnn s Hs). lia.
      * rewrite Hcell1 by lia. now apply Hnn.
    + lia.
    + exists a'. rewrite E'. split; [|split; [|split; [|split]]].
      * f_equal. f_equal. lia.
      * rewrite Hlen'. apply list_upd_length.
      * assumption.
      * lia.
      * intros j Hj Hout. rewrite Hout' by assumption. apply Hcell1; lia.
Qed.

End Simulation.

(** The outer loop runs the trial [num_trials] times. *)
Lemma run_simulation_trials draws d k T a st :
  0 <= T <= LLONG_MAX ->
  run_simulation draws d k T a st = trials draws d k (Z.to_nat T) a st.
Proof.
  intros HT. unfold run_simulation, for_lt. rewrite Z.sub_0_r.
  assert (H : forall n c a st, Z.of_nat n = T - c -> 0 <= c ->
            for_loop llong_of n c (fun c => c <? T)
              (fun _ '(observed_counts, st) => simulate_trial draws d k observed_counts st)
              (a, st)
            = trials draws d k n a st).
  { induction n as [|n IH]; intros c a0 st0 Hn Hc; cbn [for_loop trials].
    - destruct (Z.ltb_spec c T); [lia | reflexivity].
    - destruct (Z.ltb_spec c T); [|lia].
      destruct (simulate_trial draws d k a0 st0) as [[a1 st1]| |]; cbn [bind]; try reflexivity.
      rewrite llong_of_in by (unfold LLONG_MIN; lia). cbn [bind].
      apply IH; lia. }
  apply H; lia.
Qed.

(** * The claims on the simulation *)

(** C5: for a valid configuration and any sequence of draws,
    [run_simulation] is exactly [trial_count] trials in a row; a trial adds
    one to exactly one cell, of index in [min_sum, max_sum]; and from a
    zeroed array the counts of [min_sum .. max_sum] sum to [trial_count]
    (after [dice_count] draws per trial). *)
Theorem run_simulation_counts_every_trial draws d k T :
  valid_config d k T -> (forall n, 0 <= draws n <= INT_MAX) ->
  (forall a st,
      run_simulation draws d k T a st = trials draws d k (Z.to_nat T) a st) /\
  (forall a st,
      d * k < Z.of_nat (length a) ->
      (forall j, d <= j <= d * k -> 0 <= cell 0 a j < LLONG_MAX) ->
      exists s, d <= s <= d * k /\
        simulate_trial draws d k a st
        = Ret (list_upd a (Z.to_nat s) (cell 0 a s + 1), (st + Z.to_nat d)%nat)) /\
  (exists a,
      run_simulation draws d k T (calloc 0 (d * k + 1)) 0%nat
      = Ret (a, (Z.to_nat T * Z.to_nat d)%nat) /\
      range_sum a d (d * k) = T).
Proof.
  intros [Hd [Hk HT]] Hdraws.
  assert (Hdk : d * k < INT_MAX) by (unfold INT_MAX; nia).
  split; [|split].
  - intros a st. apply run_simulation_trials. lia.
  - intros a st. apply simulate_trial_step; try assumption; lia.
  - rewrite run_simulation_trials by lia.
    destruct (trials_invariant draws Hdraws d k ltac:(lia) ltac:(lia) Hdk (Z.to_nat T)
                (calloc 0 (d * k + 1)) 0%nat) as [a [E [_ [_ [Hsum _]]]]].
    + rewrite calloc_length. nia.
    + intros j _. rewrite cell_calloc. lia.
    + unfold range_sum. rewrite zsum_zero by (intros; apply cell_calloc). lia.
    + exists a. split; [exact E|].
      rewrite Hsum. unfold range_sum.
      rewrite zsum_zero by (intros; apply cell_calloc). lia.
Qed.

Lemma run_simulation_counts_every_trial_witness :
  exists a,
    run_simulation (fun _ => 4) 2 6 5 (calloc 0 (2 * 6 + 1)) 0%nat
    = Ret (a, (Z.to_nat 5 * Z.to_nat 2)%nat) /\
    range_sum a 2 (2 * 6) = 5.
Proof.
  apply (run_simulation_counts_every_trial (fun _ => 4) 2 6 5).
  - unfold valid_config, LLONG_MAX. lia.
  - intros _. unfold INT_MAX. lia.
Defined.

(** C10: for a valid configuration and any sequence of draws, every trial's
    sum lies in [num_dice, num_dice * num_sides]; run on the
    [num_dice * num_sides + 1] zeroed cells that [main] allocates, the
    simulation never indexes outside the array (it returns), and the cells
    outside [min_sum, max_sum] are left at zero. *)
Theorem run_simulation_in_bounds draws d k T :
  valid_config d k T -> (forall n, 0 <= draws n <= INT_MAX) ->
  (forall st, exists s,
      roll_dice draws d k st = Ret (s, (st + Z.to_nat d)%nat) /\ d <= s <= d * k) /\
  (exists a st,
      main_observed draws d k T = Ret (a, st) /\
      Z.of_nat (length a) = d * k + 1 /\
      (forall j, 0 <= j -> ~ d <= j <= d * k -> cell 0 a j = 0)).
Proof.
  intros [Hd [Hk HT]] Hdraws.
  assert (Hdk : d * k < INT_MAX) by (unfold INT_MAX; nia).
  split.
  - intros st. apply roll_dice_range; try assumption; lia.
  - unfold main_observed.
    rewrite int_of_in by (unfold INT_MIN; nia). cbn [bind].
    rewrite int_of_in by (unfold INT_MIN; nia). cbn [bind].
    rewrite run_simulation_trials by lia.
    destruct (trials_invariant draws Hdraws d k ltac:(lia) ltac:(lia) Hdk (Z.to_nat T)
                (calloc 0 (d * k + 1)) 0%nat) as [a [E [Hlen [_ [_ Hout]]]]].
    + rewrite calloc_length. nia.
    + intros j _. rewrite cell_calloc. lia.
    + unfold range_sum. rewrite zsum_zero by (intros; apply cell_calloc). lia.
    + exists a. eexists. split; [exact E|]. split.
      * rewrite Hlen, calloc_length. nia.
      * intros j Hj Hn. rewrite Hout by assumption. apply cell_calloc.
Qed.

Lemma run_simulation_in_bounds_witness :
  exists a st,
    main_observed (fun n => Z.of_nat n mod 32768) 2 6 5 = Ret (a, st) /\
    Z.of_nat (length a) = 2 * 6 + 1 /\
    (forall j, 0 <= j -> ~ 2 <= j <= 2 * 6 -> cell 0 a j = 0).
Proof.
  apply (run_simulation_in_bounds (fun n => Z.of_nat n mod 32768) 2 6 5).
  - unfold valid_config, LLONG_MAX. lia.
  - intros n. pose proof (Z.mod_pos_bound (Z.of_nat n) 32768 ltac:(lia)).
    unfold INT_MAX. lia.
Defined.

(** * The chi-squared statistic *)

Section ChiSquared.

Variable A : arith.

Lemma chi_terms_snoc obs exp lo n :
  chi_terms A obs exp lo (Datatypes.S n) =
  chi_terms A obs exp lo n ++
    (if num_gt0 A (cell (num_zero A) exp (lo + Z.of_nat n))
     then [chi_term A (cell 0 obs (lo + Z.of_nat n))
                      (cell (num_zero A) exp (lo + Z.of_nat n))]
     else []).
Proof.
  unfold chi_terms. rewrite zseq_snoc, filter_app, map_app. f_equal.
  cbn [filter]. destruct (num_gt0 A _); reflexivity.
Qed.

(** One iteration: the statistic so far, over the sums below [c], becomes
    the statistic over the sums below [c + 1]. *)
Lemma chi_squared_step obs exp min_sum c :
  0 <= min_sum <= c -> c < Z.of_nat (length obs) -> c < Z.of_nat (length exp) ->
  (e <- array_get exp c ;;
   if num_gt0 A e then
     o <- array_get obs c ;;
     let difference := num_sub A (num_of_Z A o) e in
     Ret (num_add A
            (fold_left (num_add A)
               (chi_terms A obs exp min_sum (Z.to_nat (c - min_sum))) (num_zero A))
            (num_div A (num_mul A difference difference) e))
   else Ret (fold_left (num_add A)
               (chi_terms A obs exp min_sum (Z.to_nat (c - min_sum))) (num_zero A)))
  = Ret (fold_left (num_add A)
           (chi_terms A obs exp min_sum (Z.to_nat (c + 1 - min_sum))) (num_zero A)).
Proof.
  intros Hc Ho He.
  rewrite (array_get_in (num_zero A)) by lia. cbn [bind].
  replace (Z.to_nat (c + 1 - min_sum)) with (Datatypes.S (Z.to_nat (c - min_sum))) by lia.
  rewrite chi_terms_snoc, fold_left_app.
  replace (min_sum + Z.of_nat (Z.to_nat (c - min_sum))) with c by lia.
  destruct (num_gt0 A (cell (num_zero A) exp c)); [|reflexivity].
  rewrite (array_get_in 0) by lia. reflexivity.
Qed.

End ChiSquared.

(** The loop of [perform_chi_squared_test] returns, with the statistic of
    the sums it went through. *)
Lemma chi_squared_loop (A : arith) obs exp min_sum max_sum :
  defined_on obs min_sum max_sum -> defined_on exp min_sum max_sum ->
  exists r,
    perform_chi_squared_test A obs exp min_sum max_sum = Ret r /\
    r = fold_left (num_add A)
          (chi_terms A obs exp min_sum
             (Z.to_nat (Z.max min_sum (max_sum + 1) - min_sum)))
          (num_zero A).
Proof.
  intros [Hlo [Ho Ho']] [_ [He He']].
  unfold perform_chi_squared_test, for_le.
  apply (for_loop_inv int_of max_sum
           (fun c acc => acc = fold_left (num_add A)
                                 (chi_terms A obs exp min_sum (Z.to_nat (c - min_sum)))
                                 (num_zero A))
           _ min_sum).
  - intros c Hc. apply int_of_in. unfold INT_MIN. lia.
  - intros c acc Hc ->. eexists. split; [|reflexivity].
    apply chi_squared_step; lia.
  - lia.
  - lia.
  - rewrite Z.sub_diag. reflexivity.
Qed.

(** C3: for arrays defined on [min_sum, max_sum], [perform_chi_squared_test]
    returns the sum, taken upwards from [min_sum] in the arithmetic of the
    code, of [(observed - expected)^2 / expected] over the sums whose
    expected count is positive; the other sums contribute nothing.  This
    holds for binary64 and for exact arithmetic alike. *)
Theorem chi_squared_is_the_sum (A : arith) obs exp min_sum max_sum :
  defined_on obs min_sum max_sum -> defined_on exp min_sum max_sum ->
  perform_chi_squared_test A obs exp min_sum max_sum
  = Ret (chi_squared_sum A obs exp min_sum max_sum).
Proof.
  intros Ho He.
  destruct (chi_squared_loop A obs exp min_sum max_sum Ho He) as [r [E ->]].
  rewrite E. f_equal. unfold chi_squared_sum.
  replace (Z.to_nat (Z.max min_sum (max_sum + 1) - min_sum))
    with (Z.to_nat (max_sum + 1 - min_sum)) by lia.
  reflexivity.
Qed.

Lemma chi_squared_is_the_sum_witness :
  perform_chi_squared_test binary64 [0; 3; 1] [0; 2; 2]%float 1 2
  = Ret (chi_squared_sum binary64 [0; 3; 1] [0; 2; 2]%float 1 2).
Proof.
  apply (chi_squared_is_the_sum binary64 [0; 3; 1] [0; 2; 2]%float 1 2);
    unfold defined_on, INT_MAX; simpl; lia.
Defined.

(** ** In exact arithmetic *)

Lemma exact_gt0 (e : Q) : num_gt0 exact e = true <-> (0 < e)%Q.
Proof.
  cbn [num_gt0 exact]. rewrite negb_true_iff. split.
  - intros H. apply Qnot_le_lt. intros Hle. apply Qle_bool_iff in Hle. congruence.
  - intros H. destruct (Qle_bool e 0) eqn:E; [|reflexivity].
    apply Qle_bool_iff in E. lra.
Qed.

Lemma chi_term_exact o (e : Q) :
  (0 < e)%Q ->
  (0 <= chi_term exact o e)%Q /\ (chi_term exact o e == 0 <-> inject_Z o == e)%Q.
Proof.
  intros He. unfold chi_term. cbn [num_div num_mul num_sub num_of_Z exact].
  set (x := (inject_Z o - e)%Q).
  assert (Hi : (0 < / e)%Q) by now apply Qinv_lt_0_compat.
  assert (Hx : (0 <= x * x)%Q) by nra.
  unfold Qdiv. split.
  - apply Qmult_le_0_compat; lra.
  - split.
    + intros H. apply Qmult_integral in H. destruct H as [H|H]; [|lra].
      apply Qmult_integral in H. unfold x in H. destruct H; lra.
    + intros H. assert (E : (x == 0)%Q) by (unfold x; lra).
      rewrite E. ring.
Qed.

Lemma fold_left_Qplus_nonneg (l : list Q) (acc : Q) :
  (forall x, In x l -> 0 <= x)%Q -> (0 <= acc)%Q ->
  (0 <= fold_left Qplus l acc)%Q /\
  (fold_left Qplus l acc == 0 <-> acc == 0 /\ forall x, In x l -> x == 0)%Q.
Proof.
  revert acc; induction l as [|a l IH]; intros acc Hl Hacc; cbn [fold_left].
  - split; [assumption|]. split; [intros H; split; [assumption | intros x []] | tauto].
  - assert (Ha : (0 <= a)%Q) by (apply Hl; now left).
    destruct (IH (acc + a)%Q) as [H1 H2].
    + intros x Hx. apply Hl. now right.
    + lra.
    + split; [assumption|]. rewrite H2. split.
      * intros [H3 H4]. split; [lra|]. intros x [<-|Hx]; [lra | now apply H4].
      * intros [H3 H4]. split.
        -- rewrite H3, (H4 a) by (now left). reflexivity.
        -- intros x Hx. apply H4. now right.
Qed.

(** C7, as stated, fails in the code's binary64 arithmetic.  With an
    infinite expected count the statistic is [inf / inf], a NaN, which is not
    [>= 0]; and with a tiny expected count the squared difference underflows
    to zero, so the statistic is 0 although observed and expected differ. *)
Lemma chi_squared_binary64_counterexample :
  (perform_chi_squared_test binary64 [0] [PrimFloat.infinity] 0 0 = Ret PrimFloat.nan /\
   PrimFloat.leb PrimFloat.zero PrimFloat.nan = false) /\
  (perform_chi_squared_test binary64 [0] [0x1p-600%float] 0 0 = Ret PrimFloat.zero /\
   num_gt0 binary64 0x1p-600%float = true /\
   PrimFloat.eqb (num_of_Z binary64 0) 0x1p-600%float = false).
Proof. repeat split; vm_compute; reflexivity. Qed.

(** C7 (amended): in exact arithmetic, for arrays defined on
    [min_sum, max_sum], the statistic is [>= 0], and it is 0 if and only if
    the observed count equals the expected count at every sum of
    [min_sum, max_sum] whose expected count is positive. *)
Theorem chi_squared_exact_nonneg obs (exp : list Q) min_sum max_sum :
  defined_on obs min_sum max_sum -> defined_on exp min_sum max_sum ->
  exists r : Q,
    perform_chi_squared_test exact obs exp min_sum max_sum = Ret r /\
    (0 <= r)%Q /\
    ((r == 0)%Q <->
     forall s, min_sum <= s <= max_sum -> (0 < cell 0 exp s)%Q ->
               (inject_Z (cell 0%Z obs s) == cell 0 exp s)%Q).
Proof.
  intros Ho He.
  destruct (chi_squared_loop exact obs exp min_sum max_sum Ho He) as [r [E Hr]].
  exists r. split; [exact E|]. subst r.
  replace (Z.to_nat (Z.max min_sum (max_sum + 1) - min_sum))
    with (Z.to_nat (max_sum + 1 - min_sum)) by lia.
  unfold chi_terms. cbn [num_add num_zero exact].
  set (f := fun s => chi_term exact (cell 0 obs s) (cell 0%Q exp s)).
  set (l := filter (fun s => num_gt0 exact (cell 0%Q exp s))
                   (zseq min_sum (Z.to_nat (max_sum + 1 - min_sum)))).
  assert (Hl : forall s, In s l <-> min_sum <= s <= max_sum /\ (0 < cell 0%Q exp s)%Q).
  { intros s. unfold l. rewrite filter_In, zseq_In, exact_gt0. intuition lia. }
  destruct (fold_left_Qplus_nonneg (map f l) 0%Q) as [H1 H2].
  - intros x Hx. apply in_map_iff in Hx. destruct Hx as [s [<- Hs]].
    apply Hl in Hs. now apply chi_term_exact.
  - lra.
  - split; [exact H1|]. split.
    + intros Hr s Hs Hpos. apply (proj1 H2) in Hr. destruct Hr as [_ H].
      apply (chi_term_exact (cell 0 obs s) _ Hpos).
      apply H. apply in_map_iff. exists s. split; [reflexivity|]. now apply Hl.
    + intros H. apply (proj2 H2). split; [reflexivity|].
      intros x Hx. apply in_map_iff in Hx. destruct Hx as [s [<- Hs]].
      apply Hl in Hs. destruct Hs as [Hs Hpos].
      apply (chi_term_exact (cell 0 obs s) _ Hpos). now apply H.
Qed.

Lemma chi_squared_exact_nonneg_witness :
  exists r : Q,
    perform_chi_squared_test exact [0; 3; 1] [0; 2; 2]%Q 1 2 = Ret r /\
    (0 <= r)%Q /\
    ((r == 0)%Q <->
     forall s, 1 <= s <= 2 -> (0 < cell 0 [0; 2; 2] s)%Q ->
               (inject_Z (cell 0%Z [0; 3; 1]%Z s) == cell 0 [0; 2; 2] s)%Q).
Proof.
  apply (chi_squared_exact_nonneg [0; 3; 1] [0; 2; 2]%Q 1 2);
    unfold defined_on, INT_MAX; simpl; lia.
Defined.

(** * The theoretical distribution, in exact arithmetic *)

Lemma exact_pow_int k d :
  0 <= d -> (exact_pow (inject_Z k) (inject_Z d) == inject_Z (k ^ d))%Q.
Proof.
  intros Hd. unfold exact_pow. rewrite Qfloor_Z. symmetry. now apply Zpower_Qpower.
Qed.

Lemma Qsum_scaled (l : list Z) (f : Z -> Q) (w : Z -> Z) (K T : Q) :
  (forall s, In s l -> f s = (inject_Z (w s) / K * T)%Q) ->
  (fold_right Qplus 0 (map f l) == inject_Z (zsum w l) / K * T)%Q.
Proof.
  induction l as [|a l IH]; intros H.
  - simpl. unfold Qdiv. ring.
  - cbn [map fold_right zsum]. fold (zsum w l).
    rewrite IH by (intros; apply H; now right).
    rewrite (H a) by (now left). rewrite inject_Z_plus. unfold Qdiv. ring.
Qed.

(** Every cell of [min_sum .. max_sum] receives its expected count. *)
Lemma calculate_theoretical_counts_cells fuel d k T :
  valid_config d k T -> (Z.to_nat d < fuel)%nat ->
  exists e,
    calculate_theoretical_counts exact exact_pow fuel d k T (calloc 0%Q (d * k + 1)) = Ret e /\
    forall s, d <= s <= d * k ->
      cell 0%Q e s
      = (inject_Z (ways (Z.to_nat d) s k) / exact_pow (inject_Z k) (inject_Z d)
         * inject_Z T)%Q.
Proof.
  intros [Hd [Hk HT]] Hf.
  unfold calculate_theoretical_counts.
  rewrite int_of_in by (unfold INT_MIN, INT_MAX; nia). cbn [bind].
  cbn [num_of_Z num_div num_mul exact]. unfold for_le.
  set (K := exact_pow (inject_Z k) (inject_Z d)).
  destruct (for_loop_inv int_of (d * k)
              (fun c (a : list Q) =>
                 Z.of_nat (length a) = d * k + 1 /\
                 forall s, d <= s < c ->
                   cell 0%Q a s = (inject_Z (ways (Z.to_nat d) s k) / K * inject_Z T)%Q)
              (fun sum (expected_counts : list Q) =>
                 ways_to_make_sum <- count_sum_combinations_recursive fuel d sum k ;;
                 array_set expected_counts sum
                   (inject_Z ways_to_make_sum / K * inject_Z T)%Q) d) with
    (n := Z.to_nat (d * k + 1 - d)) (c := d) (s := calloc 0%Q (d * k + 1))
    as [e [E [Hlen Hcells]]].
  - intros c Hc. apply int_of_in. unfold INT_MIN, INT_MAX. nia.
  - intros c a Hc [Hlen Hcells].
    rewrite count_valid by lia. cbn [bind].
    rewrite array_set_in by lia.
    eexists. split; [reflexivity|]. split.
    + rewrite list_upd_length. assumption.
    + intros s Hs. destruct (Z.eq_dec s c) as [->|Hne].
      * rewrite cell_upd_same by lia. reflexivity.
      * rewrite cell_upd_other by lia. apply Hcells. lia.
  - nia.
  - lia.
  - split; [rewrite calloc_length; nia | intros; lia].
  - exists e. split; [exact E|]. intros s Hs. apply Hcells. nia.
Qed.

(** C4: for a valid configuration, in exact arithmetic, the expected counts
    that [calculate_theoretical_counts] writes for the sums of
    [min_sum .. max_sum] add up to [trial_count]. *)
Theorem expected_counts_sum_to_trials fuel d k T :
  valid_config d k T -> (Z.to_nat d < fuel)%nat ->
  exists e,
    calculate_theoretical_counts exact exact_pow fuel d k T (calloc 0%Q (d * k + 1)) = Ret e /\
    (range_sum_Q e d (d * k) == inject_Z T)%Q.
Proof.
  intros Hv Hf.
  destruct (calculate_theoretical_counts_cells fuel d k T Hv Hf) as [e [E Hcells]].
  destruct Hv as [Hd [Hk HT]].
  exists e. split; [exact E|]. unfold range_sum_Q.
  rewrite (Qsum_scaled _ _ (fun s => ways (Z.to_nat d) s k)
             (exact_pow (inject_Z k) (inject_Z d)) (inject_Z T)).
  - pose proof (ways_sum_all (Z.to_nat d) k ltac:(lia)) as Hsum.
    rewrite Z2Nat.id in Hsum by lia. rewrite Hsum.
    rewrite exact_pow_int by lia.
    assert (Hpos : 0 < k ^ d) by (apply Z.pow_pos_nonneg; lia).
    field. intros H0. apply (inject_Z_injective (k ^ d) 0) in H0. lia.
  - intros s Hs. apply zseq_In in Hs. apply Hcells. lia.
Qed.

Lemma expected_counts_sum_to_trials_witness :
  exists e,
    calculate_theoretical_counts exact exact_pow 3 2 6 36 (calloc 0%Q (2 * 6 + 1)) = Ret e /\
    (range_sum_Q e 2 (2 * 6) == inject_Z 36)%Q.
Proof.
  apply (expected_counts_sum_to_trials 3 2 6 36).
  - unfold valid_config, LLONG_MAX. lia.
  - simpl. lia.
Defined.

(** * Reading the parameters *)

Lemma read_parameter_accepted chk rejected fuel :
  forall var input v rest,
    read_parameter chk rejected fuel var input = Ret (v, rest) ->
    rejected v = false /\
    (exists consumed, input = consumed ++ rest) /\
    (v = var \/ exists z, In (Num z) input /\ chk z = Ret v).
Proof.
  induction fuel as [|fuel IH]; intros var input v rest H; [discriminate|].
  cbn [read_parameter] in H.
  destruct input as [|[z|] tl]; cbn [scanf bind] in H.
  - destruct (rejected var) eqn:E.
    + apply IH in H. destruct H as [H1 [H2 [H3|[z [[] _]]]]]. auto.
    + inversion H; subst. split; [assumption|]. split; [exists []; reflexivity | now left].
  - destruct (chk z) as [w| |] eqn:Ez; cbn [bind] in H; try discriminate.
    destruct (rejected w) eqn:E.
    + apply IH in H. destruct H as [H1 [[c Hc] H3]]. split; [assumption|]. split.
      * exists (Num z :: c). now rewrite Hc.
      * right. destruct H3 as [->|[z' [Hin Hz']]].
        -- exists z. split; [now left | assumption].
        -- exists z'. split; [now right | assumption].
    + inversion H; subst. split; [assumption|]. split.
      * exists [Num z]. reflexivity.
      * right. exists z. split; [now left | assumption].
  - destruct (rejected var) eqn:E.
    + apply IH in H. destruct H as [H1 [H2 [H3|[z [Hin Hz]]]]]; auto 6.
      split; [assumption|]. split; [assumption|]. right. exists z. auto.
    + inversion H; subst. split; [assumption|]. split; [exists []; reflexivity | now left].
Qed.

(** The rejected numbers are passed over and the first accepted one is
    taken. *)
Lemma read_parameter_skips chk rejected bads :
  forall fuel var v rest,
    Forall (fun b => chk b = Ret b /\ rejected b = true) bads ->
    chk v = Ret v -> rejected v = false ->
    (length bads < fuel)%nat ->
    read_parameter chk rejected fuel var (map Num bads ++ Num v :: rest) = Ret (v, rest).
Proof.
  induction bads as [|b bads IH]; intros fuel var v rest Hb Hv Hr Hf;
    (destruct fuel as [|fuel]; [simpl in Hf; lia|]); cbn [read_parameter map app scanf].
  - rewrite Hv. cbn [bind]. rewrite Hr. reflexivity.
  - inversion Hb as [|? ? [Hcb Hrb] Hb']; subst.
    rewrite Hcb. cbn [bind]. rewrite Hrb. apply IH; auto. simpl in Hf. lia.
Qed.

(** With a rejected value in the variable and no number to read, the loop
    goes round for ever. *)
Lemma read_parameter_stuck chk rejected fuel var input :
  rejected var = true ->
  (input = [] \/ exists tl, input = Junk :: tl) ->
  read_parameter chk rejected fuel var input = OutOfFuel.
Proof.
  intros Hr Hin. induction fuel as [|fuel IH]; [reflexivity|].
  cbn [read_parameter]. destruct Hin as [->|[tl ->]]; cbn [scanf bind]; now rewrite Hr.
Qed.

Lemma dice_rejected_false v : dice_rejected v = false <-> 1 <= v <= 10.
Proof. unfold dice_rejected. rewrite orb_false_iff, Z.leb_gt, Z.gtb_ltb, Z.ltb_ge. lia. Qed.

Lemma sides_rejected_false v : sides_rejected v = false <-> 2 <= v <= 100.
Proof. unfold sides_rejected. rewrite orb_false_iff, Z.leb_gt, Z.gtb_ltb, Z.ltb_ge. lia. Qed.

Lemma trials_rejected_false v : trials_rejected v = false <-> 1 <= v.
Proof. unfold trials_rejected. rewrite Z.leb_gt. lia. Qed.

Lemma in_llong_iff z : in_llong z = true <-> LLONG_MIN <= z <= LLONG_MAX.
Proof. unfold in_llong. rewrite andb_true_iff, !Z.leb_le. tauto. Qed.

(** X1: whatever the input and whatever the three variables held on entry,
    when [get_simulation_parameters] returns, it returns a valid
    configuration (dice in [1, 10], sides in [2, 100], trials a positive
    [long long]) and what is left of the input is a suffix of it. *)
Theorem get_simulation_parameters_valid fuel g_dice g_sides g_trials input d k T rest :
  in_llong g_trials = true ->
  get_simulation_parameters fuel g_dice g_sides g_trials input = Ret (d, k, T, rest) ->
  valid_config d k T /\ exists consumed, input = consumed ++ rest.
Proof.
  intros Hg H. unfold get_simulation_parameters in H.
  destruct (read_parameter int_of dice_rejected fuel g_dice input)
    as [[d' i1]| |] eqn:E1; cbn [bind] in H; try discriminate.
  destruct (read_parameter int_of sides_rejected fuel g_sides i1)
    as [[k' i2]| |] eqn:E2; cbn [bind] in H; try discriminate.
  destruct (read_parameter llong_of trials_rejected fuel g_trials i2)
    as [[T' i3]| |] eqn:E3; cbn [bind] in H; try discriminate.
  inversion H; subst. clear H.
  apply read_parameter_accepted in E1, E2, E3.
  destruct E1 as [R1 [[c1 ->] _]], E2 as [R2 [[c2 ->] _]], E3 as [R3 [[c3 ->] V3]].
  apply dice_rejected_false in R1. apply sides_rejected_false in R2.
  apply trials_rejected_false in R3.
  split.
  - repeat split; try lia.
    destruct V3 as [->|[z [_ Hz]]].
    + apply in_llong_iff in Hg. lia.
    + unfold llong_of in Hz. destruct (in_llong z) eqn:Ez; [|discriminate].
      inversion Hz; subst. apply in_llong_iff in Ez. lia.
  - exists (c1 ++ c2 ++ c3). now rewrite <- !app_assoc.
Qed.

Lemma get_simulation_parameters_valid_witness :
  valid_config 2 6 36 /\
  exists consumed,
    [Num 0; Num 11; Num 2; Num 1; Num 6; Num (-3); Num 36; Junk] = consumed ++ [Junk].
Proof.
  apply (get_simulation_parameters_valid 5 7 7 7
           [Num 0; Num 11; Num 2; Num 1; Num 6; Num (-3); Num 36; Junk] 2 6 36 [Junk]);
    reflexivity.
Defined.

(** X2: on an input that offers, for each parameter in turn, some rejected
    numbers and then an accepted one, [get_simulation_parameters] returns
    the three accepted numbers and leaves the rest of the input, whatever
    the variables held on entry. *)
Theorem get_simulation_parameters_first_accepted
    fuel g_dice g_sides g_trials bad_d bad_k bad_T d k T rest :
  Forall (fun v => in_int v = true /\ dice_rejected v = true) bad_d ->
  Forall (fun v => in_int v = true /\ sides_rejected v = true) bad_k ->
  Forall (fun v => in_llong v = true /\ trials_rejected v = true) bad_T ->
  valid_config d k T ->
  (length bad_d < fuel)%nat -> (length bad_k < fuel)%nat -> (length bad_T < fuel)%nat ->
  get_simulation_parameters fuel g_dice g_sides g_trials
    (map Num bad_d ++ Num d :: map Num bad_k ++ Num k :: map Num bad_T ++ Num T :: rest)
  = Ret (d, k, T, rest).
Proof.
  intros Hd Hk HT [Vd [Vk VT]] Fd Fk FT. unfold get_simulation_parameters.
  rewrite read_parameter_skips; try assumption.
  - cbn [bind]. rewrite read_parameter_skips; try assumption.
    + cbn [bind]. rewrite read_parameter_skips; try assumption.
      * reflexivity.
      * eapply Forall_impl; [|exact HT]. intros v [H1 H2]. split; [|assumption].
        apply llong_of_in. now apply in_llong_iff.
      * apply llong_of_in. unfold LLONG_MIN. lia.
      * apply trials_rejected_false. lia.
    + eapply Forall_impl; [|exact Hk]. intros v [H1 H2]. split; [|assumption].
      apply int_of_in. now apply in_int_iff.
    + apply int_of_in. unfold INT_MIN, INT_MAX. lia.
    + apply sides_rejected_false. lia.
  - eapply Forall_impl; [|exact Hd]. intros v [H1 H2]. split; [|assumption].
    apply int_of_in. now apply in_int_iff.
  - apply int_of_in. unfold INT_MIN, INT_MAX. lia.
  - apply dice_rejected_false. lia.
Qed.

Lemma get_simulation_parameters_first_accepted_witness :
  get_simulation_parameters 3 0 0 0
    (map Num [0; 11] ++ Num 2 :: map Num [1] ++ Num 6 :: map Num [-3] ++ Num 36 :: [Junk])
  = Ret (2, 6, 36, [Junk]).
Proof.
  apply (get_simulation_parameters_first_accepted 3 0 0 0 [0; 11] [1] [-3] 2 6 36 [Junk]);
    try (simpl; lia).
  - repeat constructor.
  - repeat constructor.
  - repeat constructor.
  - unfold valid_config, LLONG_MAX. lia.
Defined.

(** X3: when the input runs out, or shows text that is not a number, while
    the number of dice is still a rejected one (every number read so far
    was rejected, or none was read and the variable held a rejected value
    on entry), the first prompt loop never ends: no number of rounds makes
    [get_simulation_parameters] return. *)
Theorem get_simulation_parameters_never_returns fuel g_dice g_sides g_trials bads tail :
  Forall (fun v => in_int v = true /\ dice_rejected v = true) bads ->
  (bads = [] -> dice_rejected g_dice = true) ->
  (tail = [] \/ exists tl, tail = Junk :: tl) ->
  get_simulation_parameters fuel g_dice g_sides g_trials (map Num bads ++ tail) = OutOfFuel.
Proof.
  intros Hb Hl Ht. unfold get_simulation_parameters.
  replace (read_parameter int_of dice_rejected fuel g_dice (map Num bads ++ tail))
    with (@OutOfFuel (Z * list token)); [reflexivity|].
  symmetry. revert fuel g_dice Hl.
  induction Hb as [|b bads [Hib Hrb] Hb IH]; intros fuel g Hl.
  - apply read_parameter_stuck; auto.
  - destruct fuel as [|fuel]; [reflexivity|].
    cbn [read_parameter map app scanf].
    rewrite int_of_in by (now apply in_int_iff). cbn [bind]. rewrite Hrb.
    apply IH. intros _. exact Hrb.
Qed.

Lemma get_simulation_parameters_never_returns_witness :
  get_simulation_parameters 1000 3 6 100 (map Num [0; 25] ++ [Junk; Num 2]) = OutOfFuel.
Proof.
  apply (get_simulation_parameters_never_returns 1000 3 6 100 [0; 25] [Junk; Num 2]).
  - repeat constructor.
  - discriminate.
  - right. eexists. reflexivity.
Defined.

(** * More on the engine *)

Lemma ways_pos n t k :
  1 <= k -> Z.of_nat n <= t <= Z.of_nat n * k -> 1 <= ways n t k.
Proof.
  intros Hk. revert t; induction n as [|n IH]; intros t Ht.
  - simpl. destruct (Z.eqb_spec t 0); lia.
  - cbn [ways]. set (i := Z.max 1 (t - Z.of_nat n * k)).
    assert (Hi : 1 <= i <= k) by (unfold i; nia).
    assert (Hti : Z.of_nat n <= t - i <= Z.of_nat n * k) by (unfold i; nia).
    specialize (IH (t - i) Hti).
    assert (ways n (t - i) k <= zsum (fun j => ways n (t - j) k) (faces k)); [|lia].
    apply (zsum_member_le (fun j => ways n (t - j) k)).
    + intros; apply ways_nonneg.
    + now apply faces_In.
Qed.

(** X4: for up to 10 dice of 2 to 100 sides the engine returns a count that
    is at least 1 exactly for the targets from [dice_remaining] to
    [dice_remaining * sides_count]: every sum of that range can be rolled,
    and no other. *)
Theorem count_positive_in_range fuel d t k :
  0 <= d <= 10 -> 2 <= k <= 100 -> (Z.to_nat d < fuel)%nat ->
  exists v,
    count_sum_combinations_recursive fuel d t k = Ret v /\
    0 <= v /\ (1 <= v <-> d <= t <= d * k).
Proof.
  intros Hd Hk Hf. exists (ways (Z.to_nat d) t k).
  split; [now apply count_valid|]. split; [apply ways_nonneg|]. split.
  - intros Hv. destruct (Z.lt_ge_cases t d) as [Hlt|Hge].
    + rewrite ways_low in Hv by lia. lia.
    + destruct (Z.lt_ge_cases (d * k) t) as [Hgt|Hle]; [|lia].
      rewrite ways_high in Hv by lia. lia.
  - intros Ht. apply ways_pos; lia.
Qed.

Lemma count_positive_in_range_witness :
  exists v,
    count_sum_combinations_recursive 4 3 10 6 = Ret v /\
    0 <= v /\ (1 <= v <-> 3 <= 10 <= 3 * 6).
Proof.
  apply (count_positive_in_range 4 3 10 6); simpl; lia.
Defined.

(** X5: the smallest and the largest sum can each be rolled in exactly one
    way: for [dice_remaining >= 0] and [sides_count >= 2] with
    [dice_remaining * sides_count] in [int] and [sides_count < INT_MAX], the
    engine returns 1 for the targets [dice_remaining] and
    [dice_remaining * sides_count]. *)
Theorem count_extreme_sums fuel d k :
  0 <= d -> 2 <= k < INT_MAX -> d * k <= INT_MAX -> (Z.to_nat d < fuel)%nat ->
  count_sum_combinations_recursive fuel d d k = Ret 1 /\
  count_sum_combinations_recursive fuel d (d * k) k = Ret 1.
Proof.
  intros Hd Hk Hdk Hf.
  assert (H1 : ways (Z.to_nat d) d k = 1).
  { rewrite <- (Z2Nat.id d) at 2 by lia. apply ways_all_ones. lia. }
  assert (H2 : ways (Z.to_nat d) (d * k) k = 1).
  { rewrite <- (ways_sym (Z.to_nat d) (d * k) k), Z2Nat.id by lia.
    replace (d * (k + 1) - d * k) with d by lia. exact H1. }
  rewrite !count_outcome_Z by lia.
  destruct (Z.ltb_spec d d); [lia|].
  destruct (Z.ltb_spec (d * k) d); [nia|].
  destruct (Z.ltb_spec INT_MAX (d * k)); [lia|].
  destruct (Z.eqb_spec k INT_MAX); [lia|].
  rewrite !andb_false_r, H1, H2. split; reflexivity.
Qed.

Lemma count_extreme_sums_witness :
  count_sum_combinations_recursive 4 3 3 6 = Ret 1 /\
  count_sum_combinations_recursive 4 3 (3 * 6) 6 = Ret 1.
Proof.
  apply (count_extreme_sums 4 3 6); unfold INT_MAX; simpl; lia.
Defined.

(** X6: with at least one die, the engine's count is at most
    [sides_count ^ (dice_remaining - 1)], and the engine returns it whenever
    that power fits in [long long] (and [dice_remaining * sides_count] in
    [int]).  For 10 dice of 100 sides the bound is [10 ^ 18], below
    [2 ^ 63]: the [long long] arithmetic never overflows on a valid
    configuration. *)
Theorem count_bounded fuel d t k :
  1 <= d -> 2 <= k < INT_MAX -> d * k <= INT_MAX ->
  k ^ (d - 1) <= LLONG_MAX -> (Z.to_nat d < fuel)%nat ->
  exists v,
    count_sum_combinations_recursive fuel d t k = Ret v /\
    0 <= v <= k ^ (d - 1).
Proof.
  intros Hd Hk Hdk Hp Hf. exists (ways (Z.to_nat d) t k).
  assert (Hb : ways (Z.to_nat d) t k <= k ^ (d - 1)).
  { destruct (Z.to_nat d) as [|m] eqn:E; [lia|].
    replace (d - 1) with (Z.of_nat m) by lia. apply ways_bound. lia. }
  pose proof (ways_nonneg (Z.to_nat d) t k) as Hn.
  split; [|lia].
  rewrite count_outcome_Z by lia.
  destruct (Z.ltb_spec t d); [now rewrite ways_low by lia|].
  destruct (Z.ltb_spec INT_MAX (d * k)); [lia|].
  destruct (Z.eqb_spec k INT_MAX); [lia|].
  rewrite andb_false_r. apply llong_of_in. unfold LLONG_MIN. lia.
Qed.

Lemma count_bounded_witness :
  exists v,
    count_sum_combinations_recursive 11 10 505 100 = Ret v /\
    0 <= v <= 100 ^ (10 - 1).
Proof.
  apply (count_bounded 11 10 505 100); unfold INT_MAX, LLONG_MAX; simpl; lia.
Defined.

(** * More on the theoretical distribution *)

(** The loop of [calculate_theoretical_counts] on any array long enough, in
    any arithmetic. *)
Lemma calculate_theoretical_counts_frame (A : arith) pow fuel d k T (a : list (num A)) :
  0 <= d <= 10 -> 2 <= k <= 100 -> (Z.to_nat d < fuel)%nat ->
  d * k < Z.of_nat (length a) ->
  exists e,
    calculate_theoretical_counts A pow fuel d k T a = Ret e /\
    length e = length a /\
    (forall s, d <= s <= d * k ->
       cell (num_zero A) e s
       = num_mul A (num_div A (num_of_Z A (ways (Z.to_nat d) s k))
                      (pow (num_of_Z A k) (num_of_Z A d)))
           (num_of_Z A T)) /\
    (forall s, 0 <= s -> ~ d <= s <= d * k ->
       cell (num_zero A) e s = cell (num_zero A) a s).
Proof.
  intros Hd Hk Hf Hlen.
  unfold calculate_theoretical_counts.
  rewrite int_of_in by (unfold INT_MIN, INT_MAX; nia). cbn [bind]. unfold for_le.
  set (K := pow (num_of_Z A k) (num_of_Z A d)).
  destruct (for_loop_inv int_of (d * k)
              (fun c (e : list (num A)) =>
                 length e = length a /\
                 (forall s, d <= s < c ->
                    cell (num_zero A) e s
                    = num_mul A (num_div A (num_of_Z A (ways (Z.to_nat d) s k)) K)
                        (num_of_Z A T)) /\
                 (forall s, 0 <= s -> ~ d <= s < c ->
                    cell (num_zero A) e s = cell (num_zero A) a s))
              (fun sum (expected_counts : list (num A)) =>
                 ways_to_make_sum <- count_sum_combinations_recursive fuel d sum k ;;
                 array_set expected_counts sum
                   (num_mul A (num_div A (num_of_Z A ways_to_make_sum) K)
                      (num_of_Z A T))) d) with
    (n := Z.to_nat (d * k + 1 - d)) (c := d) (s := a)
    as [e [E [He [Hin Hout]]]].
  - intros c Hc. apply int_of_in. unfold INT_MIN, INT_MAX. nia.
  - intros c e Hc [He [Hin Hout]].
    rewrite count_valid by lia. cbn [bind].
    rewrite array_set_in by lia.
    eexists. split; [reflexivity|]. split; [|split].
    + rewrite list_upd_length. assumption.
    + intros s Hs. destruct (Z.eq_dec s c) as [->|Hne].
      * rewrite cell_upd_same by lia. reflexivity.
      * rewrite cell_upd_other by lia. apply Hin. lia.
    + intros s Hs Hn. rewrite cell_upd_other by lia. apply Hout; lia.
  - nia.
  - lia.
  - split; [reflexivity|]. split; [intros; lia | reflexivity].
  - exists e. split; [exact E|]. split; [assumption|]. split.
    + intros s Hs. apply Hin. nia.
    + intros s Hs Hn. apply Hout; [assumption|]. nia.
Qed.

(** X7: in the code's [double] arithmetic as in any other, for up to 10 dice
    of 2 to 100 sides and an array with a cell for every sum up to
    [max_sum], [calculate_theoretical_counts] overwrites exactly the cells
    [min_sum .. max_sum]: the cell of sum [s] receives
    [(count / pow (sides, dice)) * trials] for the exact number [count] of
    tuples of sum [s], the other cells and the length are left as they were,
    and the cells of [s] and of the reflected sum
    [dice * (sides + 1) - s] receive the same value. *)
Theorem calculate_theoretical_counts_writes (A : arith) pow fuel d k T (a : list (num A)) :
  0 <= d <= 10 -> 2 <= k <= 100 -> (Z.to_nat d < fuel)%nat ->
  d * k < Z.of_nat (length a) ->
  exists e,
    calculate_theoretical_counts A pow fuel d k T a = Ret e /\
    length e = length a /\
    (forall s, d <= s <= d * k ->
       cell (num_zero A) e s
       = num_mul A (num_div A (num_of_Z A (count_tuples (Z.to_nat d) s k))
                      (pow (num_of_Z A k) (num_of_Z A d)))
           (num_of_Z A T) /\
       cell (num_zero A) e (d * (k + 1) - s) = cell (num_zero A) e s) /\
    (forall s, 0 <= s -> ~ d <= s <= d * k ->
       cell (num_zero A) e s = cell (num_zero A) a s).
Proof.
  intros Hd Hk Hf Hlen.
  destruct (calculate_theoretical_counts_frame A pow fuel d k T a Hd Hk Hf Hlen)
    as [e [E [He [Hin Hout]]]].
  exists e. split; [exact E|]. split; [exact He|]. split; [|exact Hout].
  intros s Hs. rewrite count_tuples_ways. split; [now apply Hin|].
  rewrite !Hin by lia. do 3 f_equal.
  rewrite <- (ways_sym (Z.to_nat d) s k), Z2Nat.id by lia. reflexivity.
Qed.

Lemma calculate_theoretical_counts_writes_witness :
  exists e,
    calculate_theoretical_counts exact exact_pow 3 2 6 1000 (calloc 0%Q 13) = Ret e /\
    length e = length (calloc 0%Q 13) /\
    (forall s, 2 <= s <= 2 * 6 ->
       cell 0%Q e s
       = (inject_Z (count_tuples (Z.to_nat 2) s 6)
          / exact_pow (inject_Z 6) (inject_Z 2) * inject_Z 1000)%Q /\
       cell 0%Q e (2 * (6 + 1) - s) = cell 0%Q e s) /\
    (forall s, 0 <= s -> ~ 2 <= s <= 2 * 6 ->
       cell 0%Q e s = cell 0%Q (calloc 0%Q 13) s).
Proof.
  apply (calculate_theoretical_counts_writes exact exact_pow 3 2 6 1000 (calloc 0%Q 13));
    simpl; lia.
Defined.

(** X8: in exact arithmetic, for a valid configuration, the expected count
    that [calculate_theoretical_counts] writes for a sum [s] of
    [min_sum .. max_sum] is [trials * count / sides ^ dice], where [count]
    is the number of tuples of sum [s]; it is positive and at most
    [trials]. *)
Theorem expected_counts_positive fuel d k T :
  valid_config d k T -> (Z.to_nat d < fuel)%nat ->
  exists e,
    calculate_theoretical_counts exact exact_pow fuel d k T (calloc 0%Q (d * k + 1)) = Ret e /\
    forall s, d <= s <= d * k ->
      (cell 0 e s == inject_Z T * inject_Z (count_tuples (Z.to_nat d) s k) / inject_Z (k ^ d))%Q /\
      (0 < cell 0 e s <= inject_Z T)%Q.
Proof.
  intros [Hd [Hk HT]] Hf.
  destruct (calculate_theoretical_counts_frame exact exact_pow fuel d k T
              (calloc 0%Q (d * k + 1))) as [e [E [_ [Hin _]]]]; try lia.
  { rewrite calloc_length. nia. }
  exists e. split; [exact E|]. intros s Hs.
  specialize (Hin s Hs). cbn [num_zero num_mul num_div num_of_Z num exact] in Hin.
  rewrite Hin, count_tuples_ways, exact_pow_int by lia.
  set (w := ways (Z.to_nat d) s k).
  assert (Hw : 1 <= w) by (apply ways_pos; [lia | rewrite Z2Nat.id by lia; lia]).
  assert (Hwk : w <= k ^ d).
  { pose proof (ways_sum_all (Z.to_nat d) k ltac:(lia)) as Hall.
    rewrite Z2Nat.id in Hall by lia. rewrite <- Hall.
    apply (zsum_member_le (fun t => ways (Z.to_nat d) t k)).
    - intros; apply ways_nonneg.
    - apply zseq_In. lia. }
  assert (HK : (0 < inject_Z (k ^ d))%Q).
  { rewrite <- (Zlt_Qlt 0). lia. }
  assert (HwQ : (1 <= inject_Z w)%Q) by (rewrite <- (Zle_Qle 1); lia).
  assert (HwK : (inject_Z w <= inject_Z (k ^ d))%Q) by (rewrite <- Zle_Qle; lia).
  assert (HTQ : (1 <= inject_Z T)%Q) by (rewrite <- (Zle_Qle 1); lia).
  split; [field; lra|].
  split.
  - apply Qmult_lt_0_compat; [|lra].
    apply Qlt_shift_div_l; lra.
  - rewrite <- (Qmult_1_l (inject_Z T)) at 2.
    apply Qmult_le_compat_r; [|lra].
    apply Qle_shift_div_r; lra.
Qed.

Lemma expected_counts_positive_witness :
  exists e,
    calculate_theoretical_counts exact exact_pow 3 2 6 36 (calloc 0%Q (2 * 6 + 1)) = Ret e /\
    forall s, 2 <= s <= 2 * 6 ->
      (cell 0 e s == inject_Z 36 * inject_Z (count_tuples (Z.to_nat 2) s 6) / inject_Z (6 ^ 2))%Q /\
      (0 < cell 0 e s <= inject_Z 36)%Q.
Proof.
  apply (expected_counts_positive 3 2 6 36).
  - unfold valid_config, LLONG_MAX. lia.
  - simpl. lia.
Defined.

(** * More on the simulation *)

Lemma array_get_ret {A : Type} (d : A) (a : list A) i x :
  array_get a i = Ret x -> 0 <= i < Z.of_nat (length a) /\ x = cell d a i.
Proof.
  unfold array_get, cell. destruct (Z.leb_spec 0 i); [|discriminate].
  destruct (nth_error a (Z.to_nat i)) eqn:E; [|discriminate].
  intros Hx. inversion Hx; subst. split.
  - assert (Z.to_nat i < length a)%nat by (apply nth_error_Some; congruence). lia.
  - symmetry. now apply nth_error_nth.
Qed.

Lemma array_set_ret {A : Type} (a a' : list A) i x :
  array_set a i x = Ret a' -> 0 <= i < Z.of_nat (length a) /\ a' = list_upd a (Z.to_nat i) x.
Proof.
  unfold array_set. destruct (Z.leb_spec 0 i); [|discriminate].
  destruct (Z.ltb_spec i (Z.of_nat (length a))); [|discriminate].
  intros Hx. inversion Hx. split; [lia | reflexivity].
Qed.

Section Histogram.

Variable draws : nat -> Z.
Hypothesis draws_range : forall n, 0 <= draws n <= INT_MAX.

Variables d k : Z.
Hypothesis d_pos : 1 <= d.
Hypothesis k_pos : 1 <= k.
Hypothesis dk_int : d * k < INT_MAX.

(** The inner loop adds up the faces of the next [d] draws. *)
Lemma roll_dice_value st :
  roll_dice draws d k st
  = Ret (zsum (fun j => Z.rem (draws (st + Z.to_nat j)%nat) k + 1) (zseq 0 (Z.to_nat d)),
         (st + Z.to_nat d)%nat).
Proof.
  assert (Hd : d <= d * k) by nia.
  assert (Hk : k <= d * k) by nia.
  unfold roll_dice. rewrite for_lt_le. unfold for_le.
  destruct (for_loop_inv int_of (d - 1)
              (fun c p =>
                 fst p = zsum (fun j => Z.rem (draws (st + Z.to_nat j)%nat) k + 1)
                              (zseq 0 (Z.to_nat c)) /\
                 c <= fst p <= c * k /\ snd p = (st + Z.to_nat c)%nat)
              (fun _ '(current_sum, st0) =>
                 r <- int_rem (draws st0) k ;;
                 face <- int_of (r + 1) ;;
                 current_sum' <- int_of (current_sum + face) ;;
                 Ret (current_sum', Datatypes.S st0)) 0) with
    (n := Z.to_nat (d - 1 + 1 - 0)) (c := 0) (s := (0, st)) as [[s st'] [E [Hv [Hs Hst]]]].
  - intros c Hc. apply int_of_in. unfold INT_MIN. lia.
  - intros c [cs st0] Hc [Hv [Hcs Hst0]]. cbn [fst snd] in *.
    pose proof (draws_range st0) as Hdr.
    unfold int_rem. destruct (Z.eqb_spec k 0); [lia|].
    destruct (Z.eqb_spec (draws st0) INT_MIN); [unfold INT_MIN in *; lia|].
    cbn [andb bind].
    pose proof (Z.rem_bound_pos (draws st0) k ltac:(lia) ltac:(lia)) as Hr.
    rewrite int_of_in by (unfold INT_MIN; lia). cbn [bind].
    assert (c * k + k <= d * k) by nia.
    rewrite int_of_in by (unfold INT_MIN; lia). cbn [bind].
    eexists. split; [reflexivity|]. cbn [fst snd]. split; [|split; [nia | lia]].
    replace (Z.to_nat (c + 1)) with (Datatypes.S (Z.to_nat c)) by lia.
    rewrite zsum_snoc, <- Hv, Hst0.
    replace (0 + Z.of_nat (Z.to_nat c)) with c by lia. reflexivity.
  - lia.
  - lia.
  - cbn [fst snd]. split; [reflexivity | split; [lia | simpl; lia]].
  - cbn [fst snd] in *. rewrite E.
    replace (Z.max 0 (d - 1 + 1)) with d in * by lia.
    rewrite Hv, Hst. reflexivity.
Qed.

Lemma roll_dice_trial_sum i :
  roll_dice draws d k (i * Z.to_nat d)%nat
  = Ret (trial_sum draws d k i, (Datatypes.S i * Z.to_nat d)%nat).
Proof.
  rewrite roll_dice_value. unfold trial_sum. do 2 f_equal. lia.
Qed.

(** When [n] trials return, every cell has grown by the number of those
    trials whose sum is its index. *)
Lemma trials_histogram n :
  forall i0 a a' st',
    trials draws d k n a (i0 * Z.to_nat d)%nat = Ret (a', st') ->
    forall s, 0 <= s ->
      cell 0 a' s
      = cell 0 a s
        + Z.of_nat (length (filter (fun i => trial_sum draws d k i =? s) (seq i0 n))).
Proof.
  induction n as [|n IH]; intros i0 a a' st' H s Hs.
  - cbn [trials] in H. inversion H; subst. simpl. lia.
  - cbn [trials] in H. unfold simulate_trial in H.
    rewrite roll_dice_trial_sum in H. cbn [bind] in H.
    set (ts := trial_sum draws d k i0) in *.
    destruct (array_get a ts) as [old| |] eqn:Eg; cbn [bind] in H; try discriminate.
    apply (array_get_ret 0) in Eg. destruct Eg as [Hts ->].
    destruct (llong_of (cell 0 a ts + 1)) as [new| |] eqn:El; cbn [bind] in H; try discriminate.
    apply llong_of_id in El. subst new.
    destruct (array_set a ts (cell 0 a ts + 1)) as [a1| |] eqn:Es; cbn [bind] in H;
      try discriminate.
    apply array_set_ret in Es. destruct Es as [_ ->].
    rewrite (IH (Datatypes.S i0) _ a' st' H s Hs).
    cbn [seq filter]. fold ts.
    destruct (Z.eqb_spec ts s) as [->|Hne].
    + rewrite cell_upd_same by lia. cbn [length]. lia.
    + rewrite cell_upd_other by lia. lia.
Qed.

End Histogram.

Lemma trials_app draws d k n m :
  forall a st,
    trials draws d k (n + m) a st
    = ('(a1, st1) <- trials draws d k n a st ;; trials draws d k m a1 st1).
Proof.
  induction n as [|n IH]; intros a st; [reflexivity|].
  cbn [Nat.add trials].
  destruct (simulate_trial draws d k a st) as [[a1 st1]| |]; cbn [bind]; auto.
Qed.

(** X9: for a valid configuration and any sequence of draws, the array that
    [run_simulation] returns from zeroed counts is the histogram of the
    trials' sums: the cell of index [s] holds the number of trials, among
    the [trial_count] first, whose [dice_count] draws (each taken modulo
    [sides_count], plus one) add up to [s]. *)
Theorem run_simulation_histogram draws d k T :
  valid_config d k T -> (forall n, 0 <= draws n <= INT_MAX) ->
  exists a st,
    run_simulation draws d k T (calloc 0 (d * k + 1)) 0%nat = Ret (a, st) /\
    forall s, 0 <= s -> cell 0 a s = histogram draws d k (Z.to_nat T) s.
Proof.
  intros [Hd [Hk HT]] Hdraws.
  assert (Hdk : d * k < INT_MAX) by (unfold INT_MAX; nia).
  rewrite run_simulation_trials by lia.
  destruct (trials_invariant draws Hdraws d k ltac:(lia) ltac:(lia) Hdk (Z.to_nat T)
              (calloc 0 (d * k + 1)) 0%nat) as [a [E _]].
  - rewrite calloc_length. nia.
  - intros j _. rewrite cell_calloc. lia.
  - unfold range_sum. rewrite zsum_zero by (intros; apply cell_calloc). lia.
  - exists a. eexists. split; [exact E|]. intros s Hs.
    rewrite (trials_histogram draws Hdraws d k ltac:(lia) ltac:(lia) Hdk
               (Z.to_nat T) 0%nat _ _ _ E s Hs).
    rewrite cell_calloc. reflexivity.
Qed.

Lemma run_simulation_histogram_witness :
  exists a st,
    run_simulation (fun n => Z.of_nat n mod 32768) 2 6 5 (calloc 0 (2 * 6 + 1)) 0%nat
    = Ret (a, st) /\
    forall s, 0 <= s ->
      cell 0 a s = histogram (fun n => Z.of_nat n mod 32768) 2 6 (Z.to_nat 5) s.
Proof.
  apply (run_simulation_histogram (fun n => Z.of_nat n mod 32768) 2 6 5).
  - unfold valid_config, LLONG_MAX. lia.
  - intros n. pose proof (Z.mod_pos_bound (Z.of_nat n) 32768 ltac:(lia)).
    unfold INT_MAX. lia.
Defined.

(** X10: running [t1] trials and then [t2] more, on the counts and with the
    generator the first run left, is running [t1 + t2] trials at once
    (whatever the dice, the sides and the array; an undefined first run
    makes both undefined). *)
Theorem run_simulation_continues draws d k t1 t2 a st :
  0 <= t1 -> 0 <= t2 -> t1 + t2 <= LLONG_MAX ->
  run_simulation draws d k (t1 + t2) a st
  = ('(a1, st1) <- run_simulation draws d k t1 a st ;;
     run_simulation draws d k t2 a1 st1).
Proof.
  intros H1 H2 H12.
  rewrite !run_simulation_trials by lia.
  rewrite Z2Nat.inj_add by lia. rewrite trials_app.
  destruct (trials draws d k (Z.to_nat t1) a st) as [[a1 st1]| |]; cbn [bind]; try reflexivity.
  now rewrite run_simulation_trials by lia.
Qed.

Lemma run_simulation_continues_witness :
  run_simulation (fun _ => 4) 2 6 (3 + 2) (calloc 0 13) 0%nat
  = ('(a1, st1) <- run_simulation (fun _ => 4) 2 6 3 (calloc 0 13) 0%nat ;;
     run_simulation (fun _ => 4) 2 6 2 a1 st1).
Proof.
  apply (run_simulation_continues (fun _ => 4) 2 6 3 2 (calloc 0 13) 0%nat);
    unfold LLONG_MAX; lia.
Defined.

(** X11: with zero sides the first die rolled takes a remainder by zero:
    for at least one die and at least one trial, [run_simulation] is
    undefined, whatever the draws. *)
Theorem run_simulation_zero_sides draws d T a st :
  1 <= d -> 1 <= T ->
  run_simulation draws d 0 T a st = Undefined.
Proof.
  intros Hd HT. unfold run_simulation, for_lt.
  destruct (Z.to_nat (T - 0)) as [|n] eqn:En; [lia|].
  cbn [for_loop]. destruct (Z.ltb_spec 0 T); [|lia].
  unfold simulate_trial, roll_dice, for_lt.
  destruct (Z.to_nat (d - 0)) as [|m] eqn:Em; [lia|].
  cbn [for_loop]. destruct (Z.ltb_spec 0 d); [|lia].
  reflexivity.
Qed.

Lemma run_simulation_zero_sides_witness :
  run_simulation (fun _ => 4) 2 0 5 (calloc 0 13) 0%nat = Undefined.
Proof.
  apply (run_simulation_zero_sides (fun _ => 4) 2 5 (calloc 0 13) 0%nat); lia.
Defined.

(** * More on the chi-squared statistic *)

(** X12: the statistic depends on the observed counts only through the
    cells of [min_sum .. max_sum] whose expected count is positive: two
    arrays of observed counts that agree on those cells give the same
    result, in binary64 as in any arithmetic. *)
Theorem chi_squared_reads_positive_cells (A : arith) obs1 obs2 exp min_sum max_sum :
  defined_on obs1 min_sum max_sum -> defined_on obs2 min_sum max_sum ->
  defined_on exp min_sum max_sum ->
  (forall s, min_sum <= s <= max_sum ->
     num_gt0 A (cell (num_zero A) exp s) = true -> cell 0 obs1 s = cell 0 obs2 s) ->
  perform_chi_squared_test A obs1 exp min_sum max_sum
  = perform_chi_squared_test A obs2 exp min_sum max_sum.
Proof.
  intros H1 H2 He Hagree.
  destruct (chi_squared_loop A obs1 exp min_sum max_sum H1 He) as [r1 [E1 ->]].
  destruct (chi_squared_loop A obs2 exp min_sum max_sum H2 He) as [r2 [E2 ->]].
  rewrite E1, E2. do 2 f_equal. unfold chi_terms.
  apply map_ext_in. intros s Hs. apply filter_In in Hs. destruct Hs as [Hs Hpos].
  apply zseq_In in Hs. rewrite (Hagree s); [reflexivity | lia | assumption].
Qed.

Lemma chi_squared_reads_positive_cells_witness :
  perform_chi_squared_test binary64 [5; 3; 1; 9] [0; 2; 0; 2]%float 1 2
  = perform_chi_squared_test binary64 [7; 3; 8; 4] [0; 2; 0; 2]%float 1 2.
Proof.
  apply (chi_squared_reads_positive_cells binary64 [5; 3; 1; 9] [7; 3; 8; 4]
           [0; 2; 0; 2]%float 1 2);
    try (unfold defined_on, INT_MAX; simpl; lia).
  intros s Hs. assert (E : s = 1 \/ s = 2) by lia.
  destruct E as [->| ->]; [reflexivity | discriminate].
Defined.

(** * The report, in exact arithmetic *)

Lemma exact_gt_true (x y : Q) : exact_gt x y = true <-> (y < x)%Q.
Proof.
  unfold exact_gt. rewrite negb_true_iff. split.
  - intros H. apply Qnot_le_lt. intros Hle. apply Qle_bool_iff in Hle. congruence.
  - intros H. destruct (Qle_bool x y) eqn:E; [|reflexivity].
    apply Qle_bool_iff in E. lra.
Qed.

Lemma Qmax_list_snoc l e :
  Qmax_list (l ++ [e]) = if exact_gt e (Qmax_list l) then e else Qmax_list l.
Proof. unfold Qmax_list. now rewrite fold_left_app. Qed.

(** [Qmax_list l] is not negative, bounds every element of [l], and is 0 or
    an element of [l]. *)
Lemma Qmax_list_spec l :
  (0 <= Qmax_list l)%Q /\
  (forall x, In x l -> (x <= Qmax_list l)%Q) /\
  (Qmax_list l = 0%Q \/ In (Qmax_list l) l).
Proof.
  induction l as [|e l [H0 [Hle Hin]]] using rev_ind.
  - split; [apply Qle_refl|]. split; [intros x []|now left].
  - rewrite Qmax_list_snoc. destruct (exact_gt e (Qmax_list l)) eqn:E.
    + apply exact_gt_true in E. split; [lra|]. split.
      * intros x Hx. apply in_app_or in Hx. destruct Hx as [Hx|[<-|[]]]; [|lra].
        specialize (Hle x Hx). lra.
      * right. apply in_or_app. right. now left.
    + assert (He : (e <= Qmax_list l)%Q).
      { unfold exact_gt in E. apply negb_false_iff in E. now apply Qle_bool_iff. }
      split; [assumption|]. split.
      * intros x Hx. apply in_app_or in Hx. destruct Hx as [Hx|[<-|[]]]; auto.
      * destruct Hin as [Hin|Hin]; [now left|]. right. apply in_or_app. now left.
Qed.

Lemma max_expected_of_exact (exp : list Q) min_sum max_sum :
  defined_on exp min_sum max_sum ->
  max_expected_of exact exact_gt exp min_sum max_sum
  = Ret (Qmax_list (map (cell 0%Q exp) (zseq min_sum (Z.to_nat (max_sum + 1 - min_sum))))).
Proof.
  intros [Hlo [He He']]. unfold max_expected_of, for_le.
  destruct (for_loop_inv int_of max_sum
              (fun c (m : Q) =>
                 m = Qmax_list (map (cell 0%Q exp) (zseq min_sum (Z.to_nat (c - min_sum)))))
              (fun i (max_expected : Q) =>
                 e <- array_get exp i ;;
                 Ret (if exact_gt e max_expected then e else max_expected)) min_sum) with
    (n := Z.to_nat (max_sum + 1 - min_sum)) (c := min_sum) (s := 0%Q) as [m [E Hm]].
  - intros c Hc. apply int_of_in. unfold INT_MIN. lia.
  - intros c m Hc ->. rewrite (array_get_in 0%Q) by lia. cbn [bind].
    eexists. split; [reflexivity|].
    replace (Z.to_nat (c + 1 - min_sum)) with (Datatypes.S (Z.to_nat (c - min_sum))) by lia.
    rewrite zseq_snoc, map_app. cbn [map]. rewrite Qmax_list_snoc.
    replace (min_sum + Z.of_nat (Z.to_nat (c - min_sum))) with c by lia. reflexivity.
  - lia.
  - lia.
  - rewrite Z.sub_diag. reflexivity.
  - transitivity (Ret m); [exact E|]. rewrite Hm. do 4 f_equal. lia.
Qed.

Lemma print_bar_repeat w :
  w <= INT_MAX -> print_bar w = Ret (repeat "#"%char (Z.to_nat w)).
Proof.
  intros Hw. unfold print_bar. rewrite for_lt_le. unfold for_le.
  destruct (for_loop_inv int_of (w - 1)
              (fun c (printed : list ascii) => printed = repeat "#"%char (Z.to_nat c))
              (fun _ printed => Ret (printed ++ ["#"%char])) 0) with
    (n := Z.to_nat (w - 1 + 1 - 0)) (c := 0) (s := @nil ascii) as [p [E Hp]].
  - intros c Hc. apply int_of_in. unfold INT_MIN. lia.
  - intros c p Hc ->. eexists. split; [reflexivity|].
    replace (Z.to_nat (c + 1)) with (Datatypes.S (Z.to_nat c)) by lia.
    cbn [repeat]. symmetry. apply repeat_cons.
  - lia.
  - lia.
  - reflexivity.
  - rewrite E, Hp.
    replace (Z.to_nat (Z.max 0 (w - 1 + 1))) with (Z.to_nat w) by lia. reflexivity.
Qed.

(** The conversion to [int] of a rational that is not negative is its
    integer part. *)
Lemma exact_to_int_floor (q : Q) :
  (0 <= q)%Q -> (q <= inject_Z INT_MAX)%Q -> exact_to_int q = Ret (Qfloor q) /\ 0 <= Qfloor q <= INT_MAX.
Proof.
  intros H0 Hmax.
  assert (Hf0 : 0 <= Qfloor q).
  { change 0 with (Qfloor 0). now apply Qfloor_resp_le. }
  assert (Hf1 : Qfloor q <= INT_MAX).
  { rewrite <- (Qfloor_Z INT_MAX). now apply Qfloor_resp_le. }
  split; [|lia]. unfold exact_to_int.
  replace (Z.quot (Qnum q) (Zpos (Qden q))) with (Qfloor q).
  - apply int_of_in. unfold INT_MIN. lia.
  - destruct q as [n dn]. cbn [Qfloor Qnum Qden]. symmetry.
    apply Z.quot_div_nonneg; [|lia].
    unfold Qle in H0. cbn in H0. lia.
Qed.

Lemma bar_width_of_exact obs s (m : Q) :
  0 <= s < Z.of_nat (length obs) -> 0 <= cell 0 obs s ->
  ((0 < m)%Q -> (30 * inject_Z (cell 0%Z obs s) <= inject_Z INT_MAX * m)%Q) ->
  exists w,
    bar_width_of exact exact_to_int obs s m = Ret w /\
    w <= INT_MAX /\ Z.to_nat w = bar_length (cell 0 obs s) m.
Proof.
  intros Hs Ho Hb. unfold bar_width_of, bar_length.
  destruct (num_gt0 exact m) eqn:E.
  - apply exact_gt0 in E. specialize (Hb E).
    rewrite (array_get_in 0) by lia. cbn [bind num_mul num_div num_of_Z exact].
    assert (HoQ : (0 <= inject_Z (cell 0%Z obs s))%Q) by (rewrite <- (Zle_Qle 0); lia).
    destruct (exact_to_int_floor (inject_Z (cell 0%Z obs s) / m * inject_Z 30)%Q) as [Ef Hf].
    + apply Qmult_le_0_compat; [|rewrite <- (Zle_Qle 0); lia].
      apply Qle_shift_div_l; lra.
    + assert (H30 : (inject_Z 30 == 30)%Q) by reflexivity.
      rewrite H30.
      assert (E' : (inject_Z (cell 0%Z obs s) / m * 30 == (30 * inject_Z (cell 0%Z obs s)) / m)%Q)
        by (field; lra).
      rewrite E'. apply Qle_shift_div_r; lra.
    + eexists. split; [exact Ef|]. split; [lia | reflexivity].
  - exists 0. split; [reflexivity|]. split; [unfold INT_MAX; lia | reflexivity].
Qed.

(** What [print_results_report] prints, row by row.  The bars need the
    observed counts not to be negative, and small enough against the largest
    expected count for the widths to fit in [int]. *)
Lemma print_results_report_exact obs (exp : list Q) d k T (chi : Q) :
  0 <= k -> d <= INT_MAX -> defined_on obs d (d * k) -> defined_on exp d (d * k) ->
  (forall s, d <= s <= d * k ->
     0 <= cell 0 obs s /\
     ((0 < Qmax_list (map (cell 0 exp) (zseq d (Z.to_nat (d * k + 1 - d)))))%Q ->
      (30 * inject_Z (cell 0%Z obs s)
       <= inject_Z INT_MAX
          * Qmax_list (map (cell 0 exp) (zseq d (Z.to_nat (d * k + 1 - d)))))%Q)) ->
  print_results_report exact exact_gt exact_to_int obs exp d k T chi
  = Ret (Report
           (map (fun s =>
                   Row s (cell 0%Q exp s) (cell 0 obs s)
                     (repeat "#"%char
                        (bar_length (cell 0 obs s)
                           (Qmax_list (map (cell 0%Q exp)
                                         (zseq d (Z.to_nat (d * k + 1 - d))))))))
                (zseq d (Z.to_nat (d * k + 1 - d))))
           chi (d * k - d)).
Proof.
  intros Hk Hdi [Hd [Ho Ho']] [_ [He He']] Hbars.
  assert (Hdk : 0 <= d * k) by nia.
  unfold print_results_report.
  rewrite int_of_in by (unfold INT_MIN; lia). cbn [bind].
  rewrite int_of_in by (unfold INT_MIN, INT_MAX in *; lia). cbn [bind].
  set (M := Qmax_list (map (cell 0%Q exp) (zseq d (Z.to_nat (d * k + 1 - d))))) in *.
  set (rowf := fun s => Row s (cell 0%Q exp s) (cell 0 obs s)
                          (repeat "#"%char (bar_length (cell 0 obs s) M))).
  unfold for_le.
  destruct (for_loop_inv int_of (d * k)
              (fun c (rows : list (row Q)) => rows = map rowf (zseq d (Z.to_nat (c - d))))
              (fun sum rows =>
                 e <- array_get exp sum ;;
                 o <- array_get obs sum ;;
                 max_expected <- max_expected_of exact exact_gt exp d (d * k) ;;
                 bar_width <- bar_width_of exact exact_to_int obs sum max_expected ;;
                 bar <- print_bar bar_width ;;
                 Ret (rows ++ [Row sum e o bar])) d) with
    (n := Z.to_nat (d * k + 1 - d)) (c := d) (s := @nil (row Q)) as [rows [E Hrows]].
  - intros c Hc. apply int_of_in. unfold INT_MIN. lia.
  - intros c rows Hc ->.
    rewrite (array_get_in 0%Q) by lia. cbn [bind].
    rewrite (array_get_in 0) by lia. cbn [bind].
    rewrite max_expected_of_exact by (unfold defined_on; lia). cbn [bind]. fold M.
    destruct (Hbars c Hc) as [Hoc Hbc].
    destruct (bar_width_of_exact obs c M ltac:(lia) Hoc Hbc) as [w [Ew [Hw Hlen]]].
    rewrite Ew. cbn [bind]. rewrite print_bar_repeat by assumption. cbn [bind].
    eexists. split; [reflexivity|].
    replace (Z.to_nat (c + 1 - d)) with (Datatypes.S (Z.to_nat (c - d))) by lia.
    rewrite zseq_snoc, map_app. cbn [map].
    replace (d + Z.of_nat (Z.to_nat (c - d))) with c by lia.
    unfold rowf at 2. now rewrite Hlen.
  - lia.
  - lia.
  - rewrite Z.sub_diag. reflexivity.
  - transitivity (rows' <- Ret rows ;; Ret (Report rows' chi (d * k - d))).
    + f_equal. exact E.
    + cbn [bind]. rewrite Hrows. do 4 f_equal. lia.
Qed.

(** What a loop that returns has done: an invariant that every returning
    round keeps holds at the exit. *)
Lemma for_loop_ret_inv {S : Type} (I : Z -> S -> Prop) (body : Z -> S -> outcome S) lo hi :
  (forall c s s', lo <= c <= hi -> I c s -> body c s = Ret s' -> I (c + 1) s') ->
  forall n c s s',
    lo <= c -> I c s ->
    for_loop int_of n c (fun c => c <=? hi) body s = Ret s' ->
    I (Z.max c (hi + 1)) s'.
Proof.
  intros Hbody. induction n as [|n IH]; intros c s s' Hc HI H; cbn [for_loop] in H.
  - destruct (Z.leb_spec c hi); [discriminate|]. inversion H; subst.
    now rewrite Z.max_l by lia.
  - destruct (Z.leb_spec c hi).
    + destruct (body c s) as [s1| |] eqn:Eb; cbn [bind] in H; try discriminate.
      destruct (int_of (c + 1)) as [c'| |] eqn:Ec; cbn [bind] in H; try discriminate.
      apply int_of_id in Ec. subst c'.
      replace (Z.max c (hi + 1)) with (Z.max (c + 1) (hi + 1)) by lia.
      apply (IH (c + 1) s1 s'); [lia | | exact H].
      apply (Hbody c s s1); [lia | assumption | assumption].
    + inversion H; subst. now rewrite Z.max_l by lia.
Qed.

Lemma print_bar_ret bar_width bar :
  print_bar bar_width = Ret bar -> Forall (fun ch => ch = "#"%char) bar.
Proof.
  unfold print_bar. rewrite for_lt_le. unfold for_le. intros H.
  apply (for_loop_ret_inv (fun _ printed => Forall (fun ch => ch = "#"%char) printed)
           _ 0 (bar_width - 1)) in H; [exact H | | lia | constructor].
  intros c p p' _ Hp Hr. inversion Hr; subst.
  apply Forall_app. split; [assumption | repeat constructor].
Qed.

(** X13: in binary64 as in any arithmetic, a report that
    [print_results_report] gets to print has one row per sum, from
    [num_dice] up to [num_dice * num_sides] in order, each with the expected
    and the observed count of its sum and a bar made of [#] only; it shows
    the statistic it was given and [max_sum - min_sum] degrees of
    freedom. *)
Theorem report_rows_follow_the_sums (A : arith) gt to_int obs exp d k T chi r :
  print_results_report A gt to_int obs exp d k T chi = Ret r ->
  report_chi r = chi /\
  report_dof r = d * k - d /\
  map row_sum (report_rows r) = zseq d (Z.to_nat (d * k + 1 - d)) /\
  (forall w, In w (report_rows r) ->
     row_expected w = cell (num_zero A) exp (row_sum w) /\
     row_observed w = cell 0 obs (row_sum w) /\
     Forall (fun ch => ch = "#"%char) (row_bar w)).
Proof.
  unfold print_results_report. intros H.
  destruct (int_of (d * k)) as [max_sum| |] eqn:Em; cbn [bind] in H; try discriminate.
  apply int_of_id in Em. subst max_sum.
  destruct (int_of (d * k - d)) as [dof| |] eqn:Ed; cbn [bind] in H; try discriminate.
  apply int_of_id in Ed. subst dof.
  match type of H with
  | bind ?loop _ = _ => destruct loop as [rows| |] eqn:El; cbn [bind] in H; try discriminate
  end.
  inversion H; subst. clear H. cbn [report_chi report_dof report_rows].
  split; [reflexivity|]. split; [reflexivity|].
  unfold for_le in El.
  apply (for_loop_ret_inv
           (fun c (rows : list (row (num A))) =>
              map row_sum rows = zseq d (Z.to_nat (c - d)) /\
              forall w, In w rows ->
                row_expected w = cell (num_zero A) exp (row_sum w) /\
                row_observed w = cell 0 obs (row_sum w) /\
                Forall (fun ch => ch = "#"%char) (row_bar w))
           _ d (d * k)) in El.
  - destruct El as [Hsums Hrows]. split; [|exact Hrows].
    rewrite Hsums. f_equal. lia.
  - intros c rs rs' Hc [Hsums Hrows] Hr.
    destruct (array_get exp c) as [e| |] eqn:Ee; cbn [bind] in Hr; try discriminate.
    destruct (array_get obs c) as [o| |] eqn:Eo; cbn [bind] in Hr; try discriminate.
    apply (array_get_ret (num_zero A)) in Ee. apply (array_get_ret 0) in Eo.
    destruct Ee as [_ ->], Eo as [_ ->].
    destruct (max_expected_of A gt exp d (d * k)) as [m| |]; cbn [bind] in Hr;
      try discriminate.
    destruct (bar_width_of A to_int obs c m) as [w| |]; cbn [bind] in Hr; try discriminate.
    destruct (print_bar w) as [bar| |] eqn:Eb; cbn [bind] in Hr; try discriminate.
    inversion Hr; subst. clear Hr. apply print_bar_ret in Eb. split.
    + rewrite map_app, Hsums. cbn [map row_sum].
      replace (Z.to_nat (c + 1 - d)) with (Datatypes.S (Z.to_nat (c - d))) by lia.
      rewrite zseq_snoc. do 2 f_equal. lia.
    + intros w' Hw'. apply in_app_or in Hw'. destruct Hw' as [Hw'|[<-|[]]]; [now apply Hrows|].
      cbn [row_expected row_observed row_sum row_bar]. auto.
  - lia.
  - split; [rewrite Z.sub_diag; reflexivity | intros w []].
Qed.

Lemma report_rows_follow_the_sums_witness :
  report_chi (Report [Row 2 1.5%float 3 (repeat "#"%char 25);
                      Row 3 2%float 1 (repeat "#"%char 8);
                      Row 4 3.5%float 7 (repeat "#"%char 60)] 0.5%float 2) = 0.5%float /\
  report_dof (Report [Row 2 1.5%float 3 (repeat "#"%char 25);
                      Row 3 2%float 1 (repeat "#"%char 8);
                      Row 4 3.5%float 7 (repeat "#"%char 60)] 0.5%float 2) = 2 * 2 - 2 /\
  map row_sum (report_rows (Report [Row 2 1.5%float 3 (repeat "#"%char 25);
                                    Row 3 2%float 1 (repeat "#"%char 8);
                                    Row 4 3.5%float 7 (repeat "#"%char 60)] 0.5%float 2))
  = zseq 2 (Z.to_nat (2 * 2 + 1 - 2)) /\
  (forall w,
     In w (report_rows (Report [Row 2 1.5%float 3 (repeat "#"%char 25);
                                Row 3 2%float 1 (repeat "#"%char 8);
                                Row 4 3.5%float 7 (repeat "#"%char 60)] 0.5%float 2)) ->
     row_expected w = cell (num_zero binary64) [0; 0; 1.5; 2; 3.5]%float (row_sum w) /\
     row_observed w = cell 0 [0; 0; 3; 1; 7] (row_sum w) /\
     Forall (fun ch => ch = "#"%char) (row_bar w)).
Proof.
  apply (report_rows_follow_the_sums binary64 binary64_gt binary64_to_int
           [0; 0; 3; 1; 7] [0; 0; 1.5; 2; 3.5]%float 2 2 11 0.5%float).
  vm_compute. reflexivity.
Defined.

Lemma bar_length_criterion o (m : Q) :
  0 <= o -> (0 < m)%Q ->
  ((bar_length o m <= 30)%nat <-> (30 * inject_Z o < 31 * m)%Q).
Proof.
  intros Ho Hm. unfold bar_length.
  replace (num_gt0 exact m) with true by (symmetry; now apply exact_gt0).
  set (q := (inject_Z o / m * 30)%Q).
  assert (HoQ : (0 <= inject_Z o)%Q) by (rewrite <- (Zle_Qle 0); lia).
  assert (Hq : (q == 30 * inject_Z o / m)%Q) by (unfold q; field; lra).
  assert (Hq0 : (0 <= q)%Q).
  { rewrite Hq. apply Qle_shift_div_l; lra. }
  assert (Hf0 : 0 <= Qfloor q).
  { change 0 with (Qfloor 0). now apply Qfloor_resp_le. }
  pose proof (Qfloor_le q) as Hlo. pose proof (Qlt_floor q) as Hhi.
  split.
  - intros H. assert (Hf : Qfloor q <= 30) by lia.
    assert (Hq31 : (q < 31)%Q).
    { eapply Qlt_le_trans; [exact Hhi|].
      change 31%Q with (inject_Z 31). rewrite <- Zle_Qle. lia. }
    assert (Hx : (30 * inject_Z o == q * m)%Q) by (rewrite Hq; field; lra).
    rewrite Hx. apply Qmult_lt_compat_r; assumption.
  - intros H. assert (Hq31 : (q < 31)%Q).
    { rewrite Hq. apply Qlt_shift_div_r; lra. }
    assert (Hf : (inject_Z (Qfloor q) < inject_Z 31)%Q).
    { eapply Qle_lt_trans; [exact Hlo|]. exact Hq31. }
    rewrite <- Zlt_Qlt in Hf. lia.
Qed.

(** X14: in exact arithmetic, for arrays defined on [min_sum .. max_sum]
    whose observed counts are not negative and give bar widths that fit in
    [int], [print_results_report] returns and every bar is measured against
    [m], the largest expected count of [min_sum .. max_sum] (or 0 when none
    is positive): with [m > 0] the row
    of an observed count [o] shows the integer part of [o / m * 30]
    characters [#], which is at most 30 exactly when [30 * o < 31 * m], so a
    count above the largest expected one by a thirtieth or more gets a bar
    longer than 30; with [m = 0] every bar is empty. *)
Theorem report_bars obs (exp : list Q) d k T (chi : Q) :
  0 <= k -> d <= INT_MAX -> defined_on obs d (d * k) -> defined_on exp d (d * k) ->
  (forall s, d <= s <= d * k ->
     0 <= cell 0 obs s /\
     ((0 < Qmax_list (map (cell 0 exp) (zseq d (Z.to_nat (d * k + 1 - d)))))%Q ->
      (30 * inject_Z (cell 0%Z obs s)
       <= inject_Z INT_MAX
          * Qmax_list (map (cell 0 exp) (zseq d (Z.to_nat (d * k + 1 - d)))))%Q)) ->
  exists (m : Q) r,
    print_results_report exact exact_gt exact_to_int obs exp d k T chi = Ret r /\
    (0 <= m)%Q /\
    (forall s, d <= s <= d * k -> (cell 0 exp s <= m)%Q) /\
    (m = 0%Q \/ exists s, d <= s <= d * k /\ m = cell 0%Q exp s) /\
    (forall w, In w (report_rows r) ->
       row_bar w = repeat "#"%char (bar_length (row_observed w) m) /\
       ((0 < m)%Q ->
        ((length (row_bar w) <= 30)%nat <-> (30 * inject_Z (row_observed w) < 31 * m)%Q)) /\
       (~ (0 < m)%Q -> row_bar w = [])).
Proof.
  intros Hk Hd Ho He Hbars.
  set (M := Qmax_list (map (cell 0%Q exp) (zseq d (Z.to_nat (d * k + 1 - d))))) in *.
  destruct (Qmax_list_spec (map (cell 0%Q exp) (zseq d (Z.to_nat (d * k + 1 - d)))))
    as [H0 [Hle Hin]]. fold M in H0, Hle, Hin.
  exists M. eexists. split; [now apply print_results_report_exact|].
  split; [exact H0|]. split; [|split].
  - intros s Hs. apply Hle. apply in_map. apply zseq_In. lia.
  - destruct Hin as [Hin|Hin]; [now left|]. right.
    apply in_map_iff in Hin. destruct Hin as [s [Es Hs]]. apply zseq_In in Hs.
    exists s. split; [lia | now symmetry].
  - cbn [report_rows]. intros w Hw. apply in_map_iff in Hw. destruct Hw as [s [<- Hs]].
    apply zseq_In in Hs. cbn [row_bar row_observed]. fold M.
    split; [reflexivity|]. split.
    + intros Hm. rewrite repeat_length. apply bar_length_criterion; [|assumption].
      apply Hbars. lia.
    + intros Hm. unfold bar_length.
      replace (num_gt0 exact M) with false; [reflexivity|].
      symmetry. destruct (num_gt0 exact M) eqn:E; [|reflexivity].
      apply exact_gt0 in E. contradiction.
Qed.

Lemma report_bars_witness :
  exists (m : Q) r,
    print_results_report exact exact_gt exact_to_int [0; 0; 3; 1; 7] [0; 0; 1; 2; 3]%Q
      2 2 11 (1 # 2)%Q = Ret r /\
    (0 <= m)%Q /\
    (forall s, 2 <= s <= 2 * 2 -> (cell 0 [0; 0; 1; 2; 3] s <= m)%Q) /\
    (m = 0%Q \/ exists s, 2 <= s <= 2 * 2 /\ m = cell 0%Q [0; 0; 1; 2; 3]%Q s) /\
    (forall w, In w (report_rows r) ->
       row_bar w = repeat "#"%char (bar_length (row_observed w) m) /\
       ((0 < m)%Q ->
        ((length (row_bar w) <= 30)%nat <-> (30 * inject_Z (row_observed w) < 31 * m)%Q)) /\
       (~ (0 < m)%Q -> row_bar w = [])).
Proof.
  apply (report_bars [0; 0; 3; 1; 7] [0; 0; 1; 2; 3]%Q 2 2 11 (1 # 2)%Q);
    try (unfold defined_on, INT_MAX; simpl; lia).
  intros s Hs. assert (E : s = 2 \/ s = 3 \/ s = 4) by lia.
  destruct E as [->|[->| ->]];
    (split; [vm_compute; discriminate | intros _; vm_compute; discriminate]).
Defined.

(** * The whole run, in exact arithmetic *)








(** * A perfectly even source of draws *)

Lemma residue_count_step k s n :
  1 <= s <= k -> 0 <= n ->
  (n + 1 + k - s) / k
  = (n + k - s) / k + (if n mod k + 1 =? s then 1 else 0).
Proof.
  intros Hs Hn.
  pose proof (Z.div_mod n k ltac:(lia)) as Hqr.
  pose proof (Z.mod_pos_bound n k ltac:(lia)) as Hr.
  set (q := n / k) in *. set (r := n mod k) in *.
  assert (D : forall a q' r', 0 <= r' < k -> a = k * q' + r' -> a / k = q').
  { intros a q' r' H1 H2. symmetry. now apply (Z.div_unique_pos a k q' r'). }
  destruct (Z.eqb_spec (r + 1) s) as [E|E].
  - rewrite (D (n + 1 + k - s) (q + 1) 0), (D (n + k - s) q (k - 1)); lia.
  - destruct (Z.lt_ge_cases r s).
    + rewrite (D (n + 1 + k - s) q (r + 1 + k - s)), (D (n + k - s) q (r + k - s)); lia.
    + rewrite (D (n + 1 + k - s) (q + 1) (r + 1 - s)), (D (n + k - s) (q + 1) (r - s)); lia.
Qed.

Lemma residue_count k s (f : nat -> Z) n :
  1 <= s <= k -> (forall i, f i = Z.of_nat i mod k + 1) ->
  Z.of_nat (length (filter (fun i => f i =? s) (seq 0 n))) = (Z.of_nat n + k - s) / k.
Proof.
  intros Hs Hf. induction n as [|n IH].
  - simpl. symmetry. apply Z.div_small. lia.
  - rewrite seq_S, filter_app, length_app, Nat2Z.inj_add, IH. cbn [Nat.add filter].
    rewrite Nat2Z.inj_succ, <- Z.add_1_r, (residue_count_step k s (Z.of_nat n)) by lia.
    rewrite Hf. destruct (Z.of_nat n mod k + 1 =? s); reflexivity.
Qed.

Lemma trial_sum_one_die draws k i :
  trial_sum draws 1 k i = Z.rem (draws i) k + 1.
Proof.
  unfold trial_sum. change (Z.to_nat 1) with 1%nat. cbn [zseq zsum fold_right].
  change (Z.to_nat 0) with 0%nat.
  replace (i * 1 + 0)%nat with i by lia. lia.
Qed.

(** X16: with one die of [k] sides and draws that go round the residues
    0, 1, ..., [k - 1] in turn, [k * m] trials fill every cell of
    [1 .. k] with exactly [m]; the expected count of each of these sums is
    [m] as well (in exact arithmetic), and the statistic of the two arrays
    is 0. *)
Theorem even_source_statistic_zero draws k m fuel :
  2 <= k <= 100 -> 1 <= m -> k * m <= LLONG_MAX -> (1 < fuel)%nat ->
  (forall n, 0 <= draws n <= INT_MAX /\ Z.rem (draws n) k = Z.of_nat n mod k) ->
  exists a st e chi,
    run_simulation draws 1 k (k * m) (calloc 0 (1 * k + 1)) 0%nat = Ret (a, st) /\
    calculate_theoretical_counts exact exact_pow fuel 1 k (k * m) (calloc 0%Q (1 * k + 1))
    = Ret e /\
    perform_chi_squared_test exact a e 1 (1 * k) = Ret chi /\
    (forall s, 1 <= s <= k -> cell 0 a s = m /\ (cell 0 e s == inject_Z m)%Q) /\
    (chi == 0)%Q.
Proof.
  intros Hk Hm HT Hf Hdraws.
  assert (Hrange : forall n, 0 <= draws n <= INT_MAX) by (intros n; apply Hdraws).
  assert (Hdk : 1 * k < INT_MAX) by (unfold INT_MAX; lia).
  assert (HTpos : 1 <= k * m) by nia.
  (* the observed counts *)
  destruct (trials_invariant draws Hrange 1 k ltac:(lia) ltac:(lia) Hdk (Z.to_nat (k * m))
              (calloc 0 (1 * k + 1)) 0%nat) as [a [Ea [Hlena _]]].
  { rewrite calloc_length. lia. }
  { intros j _. rewrite cell_calloc. lia. }
  { unfold range_sum. rewrite zsum_zero by (intros; apply cell_calloc). lia. }
  rewrite calloc_length in Hlena.
  assert (Hobs : forall s, 1 <= s <= k -> cell 0 a s = m).
  { intros s Hs.
    rewrite (trials_histogram draws Hrange 1 k ltac:(lia) ltac:(lia) Hdk
               (Z.to_nat (k * m)) 0%nat _ _ _ Ea s ltac:(lia)).
    rewrite cell_calloc, (residue_count k s) by
      (try lia; intros i; rewrite trial_sum_one_die, (proj2 (Hdraws i)); reflexivity).
    rewrite Z2Nat.id by lia. cbn [Z.add].
    symmetry. apply (Z.div_unique_pos (k * m + k - s) k m (k - s)); lia. }
  (* the expected counts *)
  destruct (calculate_theoretical_counts_frame exact exact_pow fuel 1 k (k * m)
              (calloc 0%Q (1 * k + 1))) as [e [Ee [Hlene [Hcells _]]]]; try lia.
  { rewrite calloc_length. lia. }
  rewrite calloc_length in Hlene.
  cbn [num_zero num_mul num_div num_of_Z num exact] in Hcells.
  assert (Hexp : forall s, 1 <= s <= k -> (cell 0 e s == inject_Z m)%Q).
  { intros s Hs. rewrite (Hcells s ltac:(lia)), exact_pow_int by lia.
    change (Z.to_nat 1) with 1%nat. rewrite ways_one.
    destruct (Z.leb_spec 1 s); [|lia]. destruct (Z.leb_spec s k); [|lia]. cbn [andb].
    rewrite Z.pow_1_r, inject_Z_mult. field.
    intros Hk0. apply (inject_Z_injective k 0) in Hk0. lia. }
  (* the statistic *)
  destruct (chi_squared_loop exact a e 1 (1 * k)) as [chi [Echi Hchi]];
    try (unfold defined_on, INT_MAX; lia).
  exists a. eexists. exists e, chi.
  split; [rewrite run_simulation_trials by lia; exact Ea|].
  split; [exact Ee|]. split; [exact Echi|]. split; [intros s Hs; split; auto|].
  rewrite Hchi. unfold chi_terms.
  apply (fold_left_Qplus_nonneg
           (map (fun s => chi_term exact (cell 0 a s) (cell 0%Q e s))
                (filter (fun s => num_gt0 exact (cell 0%Q e s))
                        (zseq 1 (Z.to_nat (Z.max 1 (1 * k + 1) - 1))))) 0%Q).
  - intros x Hx. apply in_map_iff in Hx. destruct Hx as [s [<- Hs]].
    apply filter_In in Hs. destruct Hs as [_ Hpos]. apply exact_gt0 in Hpos.
    now apply chi_term_exact.
  - lra.
  - split; [reflexivity|]. intros x Hx. apply in_map_iff in Hx. destruct Hx as [s [<- Hs]].
    apply filter_In in Hs. destruct Hs as [Hs Hpos]. apply exact_gt0 in Hpos.
    apply zseq_In in Hs. apply (chi_term_exact _ _ Hpos).
    rewrite Hobs by lia. symmetry. apply Hexp. lia.
Qed.

Lemma even_source_statistic_zero_witness :
  exists a st e chi,
    run_simulation (fun n => Z.of_nat n mod 6) 1 6 (6 * 1000) (calloc 0 (1 * 6 + 1)) 0%nat
    = Ret (a, st) /\
    calculate_theoretical_counts exact exact_pow 2 1 6 (6 * 1000) (calloc 0%Q (1 * 6 + 1))
    = Ret e /\
    perform_chi_squared_test exact a e 1 (1 * 6) = Ret chi /\
    (forall s, 1 <= s <= 6 -> cell 0 a s = 1000 /\ (cell 0 e s == inject_Z 1000)%Q) /\
    (chi == 0)%Q.
Proof.
  apply (even_source_statistic_zero (fun n => Z.of_nat n mod 6) 6 1000 2);
    try (unfold LLONG_MAX; lia).
  intros n. pose proof (Z.mod_pos_bound (Z.of_nat n) 6 ltac:(lia)) as Hb.
  split; [unfold INT_MAX; lia|].
  rewrite Z.rem_mod_nonneg by lia. apply Z.mod_mod. lia.
Defined.
